(** * fig/project.py: dependency ordering and the service registry

    A shallow embedding of [sort_service_dicts] and of the [Project] class
    of [fig/project.py], with the properties of the ordering, of the lookup
    by name and of the lifecycle iteration that the documentation states.

    The file has three parts: the embedding of the source, the vocabulary
    of the statements, and the proofs. The sort runs in a state of its
    three variables, with explicit bounds on the depth of [visit] and on
    the rounds of the loop that are shown never to be reached; the methods
    of [Project] run in an error monad; the calls on the runtime client
    and on the services are recorded in the order they are made. *)

From Stdlib Require Import Ascii.
From stdpp Require Import base decidable option list sorting relations
  strings gmap.

#[local] Set Warnings "-register-all,-clear-no-such-hyp".

(** ** Strings *)

(** [link.split(':')[0]]: what precedes the first occurrence of [sep], the
    whole string when there is none. *)
Fixpoint split_head (sep : ascii) (s : string) : string :=
  match s with
  | EmptyString => EmptyString
  | String c rest =>
      if decide (c = sep) then EmptyString else String c (split_head sep rest)
  end.

(** [sep in s]. *)
Fixpoint contains (sep : ascii) (s : string) : bool :=
  match s with
  | EmptyString => false
  | String c rest => if decide (c = sep) then true else contains sep rest
  end.

(** [s.rsplit(sep, 1)] for a string that contains [sep]: the parts before
    and after the last occurrence; [None] when [sep] does not occur. *)
Fixpoint rsplit1 (sep : ascii) (s : string) : option (string * string) :=
  match s with
  | EmptyString => None
  | String c rest =>
      match rsplit1 sep rest with
      | Some (before, after) => Some (String c before, after)
      | None => if decide (c = sep) then Some (EmptyString, rest) else None
      end
  end.

(** ** Service declarations *)

(** A service dict: the key ['name'], the optional keys ['links'] and
    ['volumes_from'], and the remaining keys, which the sort never reads
    but which take part in the equality of dicts. *)
Record ServiceDict := mkServiceDict {
  sd_name : string;
  sd_links : option (list string);
  sd_volumes_from : option (list string);
  sd_options : gmap string string
}.

#[global] Instance ServiceDict_eq_dec : EqDecision ServiceDict.
Proof. solve_decision. Defined.

(** [n.get('links', [])] and [n.get('volumes_from', [])]. *)
Definition get_links (n : ServiceDict) : list string := default [] (sd_links n).
Definition get_volumes (n : ServiceDict) : list string :=
  default [] (sd_volumes_from n).

(** [get_service_names = lambda links:
      [link.split(':')[0] for link in links]] *)
Definition get_service_names (links : list string) : list string :=
  split_head ":"%char <$> links.

(** The test of the comprehension that builds [dependents]: [m] names [n]
    among its link targets or among its volumes_from entries. *)
Definition references (m n : ServiceDict) : Prop :=
  sd_name n ∈ get_service_names (get_links m) ∨ sd_name n ∈ get_volumes m.

#[global] Instance references_dec : RelDecision references.
Proof. intros m n. unfold references. apply _. Defined.

(** ** Errors *)

Inductive DependencyError :=
  | SelfLink (n : string)
      (* 'A service can not link to itself: %s' *)
  | SelfVolume (n : string)
      (* 'A service can not mount itself as volume: %s' *)
  | CircularImport (marked : gset string).
      (* 'Circular import between %s' % ' and '.join(temporary_marked) *)

(** Outcome of a run of bounded depth: a value, a raised error, or the
    bound reached. *)
Inductive outcome (A : Type) :=
  | Done (a : A)
  | Raise (e : DependencyError)
  | Exhausted.
Arguments Done {A} a.
Arguments Raise {A} e.
Arguments Exhausted {A}.

(** ** sort_service_dicts *)

(** [sorted(services, key=itemgetter('name'))]: the stable sort on names,
    written as the insertion of each declaration before the first one
    whose name is not smaller. *)
Fixpoint insert_by_name (n : ServiceDict) (l : list ServiceDict)
  : list ServiceDict :=
  match l with
  | [] => [n]
  | m :: l' =>
      if decide (sd_name n ≤ sd_name m)%string then n :: m :: l'
      else m :: insert_by_name n l'
  end.

Definition sorted_by_name (services : list ServiceDict) : list ServiceDict :=
  foldr insert_by_name [] services.

(** [l.remove(x)] for an [x] in [l]: the first element equal to [x] goes. *)
Fixpoint remove_first (x : ServiceDict) (l : list ServiceDict)
  : list ServiceDict :=
  match l with
  | [] => []
  | y :: l' => if decide (x = y) then l' else y :: remove_first x l'
  end.

(** The three variables that [visit] closes over. *)
Record SortState := mkSortState {
  unmarked : list ServiceDict;
  temporary_marked : gset string;
  sorted_services : list ServiceDict
}.

Definition dependents (services : list ServiceDict) (n : ServiceDict)
  : list ServiceDict :=
  filter (λ m, references m n) services.

(** [temporary_marked.add(n['name'])] *)
Definition mark (n : ServiceDict) (st : SortState) : SortState :=
  {| unmarked := unmarked st;
     temporary_marked := temporary_marked st ∪ {[sd_name n]};
     sorted_services := sorted_services st |}.

(** [temporary_marked.remove(n['name']); unmarked.remove(n);
    sorted_services.insert(0, n)] *)
Definition settle (n : ServiceDict) (st : SortState) : SortState :=
  {| unmarked := remove_first n (unmarked st);
     temporary_marked := temporary_marked st ∖ {[sd_name n]};
     sorted_services := n :: sorted_services st |}.

(** [for m in dependents: visit(m)] *)
Fixpoint visit_each (visit : ServiceDict → SortState → outcome SortState)
    (ms : list ServiceDict) (st : SortState) : outcome SortState :=
  match ms with
  | [] => Done st
  | m :: ms' =>
      match visit m st with
      | Done st' => visit_each visit ms' st'
      | Raise e => Raise e
      | Exhausted => Exhausted
      end
  end.

(** The error raised when [visit] meets a declaration in progress. *)
Definition closing_error (n : ServiceDict) (marked : gset string)
  : DependencyError :=
  if decide (sd_name n ∈ get_service_names (get_links n)) then
    SelfLink (sd_name n)
  else if decide (sd_name n ∈ get_volumes n) then SelfVolume (sd_name n)
  else CircularImport marked.

(** [visit(n)], with a bound on the depth of the recursion. *)
Fixpoint visit (services : list ServiceDict) (depth : nat) (n : ServiceDict)
    (st : SortState) : outcome SortState :=
  match depth with
  | O => Exhausted
  | S depth' =>
      if decide (sd_name n ∈ temporary_marked st) then
        Raise (closing_error n (temporary_marked st))
      else if decide (n ∈ unmarked st) then
        match visit_each (visit services depth') (dependents services n)
                (mark n st) with
        | Done st' => Done (settle n st')
        | Raise e => Raise e
        | Exhausted => Exhausted
        end
      else Done st
  end.

(** [while unmarked: visit(unmarked[-1])], with a bound on the rounds. *)
Fixpoint visit_unmarked (services : list ServiceDict) (rounds : nat)
    (st : SortState) : outcome (list ServiceDict) :=
  match last (unmarked st) with
  | None => Done (sorted_services st)
  | Some n =>
      match rounds with
      | O => Exhausted
      | S rounds' =>
          match visit services (S (length services)) n st with
          | Done st' => visit_unmarked services rounds' st'
          | Raise e => Raise e
          | Exhausted => Exhausted
          end
      end
  end.

Definition initial_state (services : list ServiceDict) : SortState :=
  {| unmarked := sorted_by_name services;
     temporary_marked := ∅;
     sorted_services := [] |}.

(** Every round takes a declaration out of [unmarked] and every nested
    call of [visit] marks one more name, so [length services] rounds and a
    depth of [length services + 1] are never reached
    ([sort_service_dicts_terminates]). *)
Definition sort_service_dicts (services : list ServiceDict)
  : outcome (list ServiceDict) :=
  visit_unmarked services (length services) (initial_state services).

(** Declarations for the examples. *)
Definition decl (name : string) (links volumes : list string) : ServiceDict :=
  {| sd_name := name;
     sd_links := if links is [] then None else Some links;
     sd_volumes_from := if volumes is [] then None else Some volumes;
     sd_options := {["image" := "busybox:latest"]} |}.

(** ** Services *)

(** Modelled from the spec: the class [Service] of [fig.service], which is
    not part of these sources. [Project] reads the name of a service, asks
    it for its linked services and compares services as objects, so a
    service carries the identity of the object, its name and its links
    ([ServiceLink(service, alias)] pairs, fixed when the object is built). *)
Inductive Service := mkService {
  service_id : nat;
  service_name : string;
  service_links : list (Service * option string)
}.

Fixpoint Service_eq_dec (a b : Service) : {a = b} + {a ≠ b}.
Proof.
  decide equality.
  - apply (list_eq_dec
             (dec := λ x y, prod_eq_dec (EqDecision0 := Service_eq_dec) x y)).
  - apply String.eq_dec.
  - apply Nat.eq_dec.
Defined.

#[global] Instance Service_eq_decision : EqDecision Service := Service_eq_dec.

(** Modelled from the spec: [service.get_linked_services()], the services
    of the links, in their order. *)
Definition get_linked_services (service : Service) : list Service :=
  fst <$> service_links service.

(** [flat_map(func, seq) = list(chain.from_iterable(map(func, seq)))] *)
Definition flat_map {A B} (func : A → list B) (seq : list A) : list B :=
  mjoin (func <$> seq).

(** ** Project *)

Inductive ProjectError :=
  | NoSuchService (name : string)
  | ConfigurationError (owner volume_name : string).
      (* 'Service "%s" mounts volumes from "%s", which is not the name of a
         service or container.' % (owner, volume_name) *)

Inductive result (A : Type) :=
  | Ok (a : A)
  | Err (e : ProjectError).
Arguments Ok {A} a.
Arguments Err {A} e.

#[global] Instance result_ret : MRet result := λ A a, Ok a.
#[global] Instance result_bind : MBind result := λ A B k r,
  match r with
  | Ok a => k a
  | Err e => Err e
  end.

(** [[f(x) for x in seq]] for an [f] that may raise: the first error ends
    the comprehension. *)
Fixpoint for_each {A B} (f : A → result B) (seq : list A) : result (list B) :=
  match seq with
  | [] => Ok []
  | x :: seq' => y ← f x; ys ← for_each f seq'; Ok (y :: ys)
  end.

Record Project := mkProject {
  name : string;
  services : list Service;
  namespace : string
}.

(** [Project(name, services, client, namespace=None)]:
    [self.namespace = namespace or name]. *)
Definition new_project (name : string) (services : list Service)
    (namespace : option string) : Project :=
  {| name := name;
     services := services;
     namespace :=
       match namespace with
       | None | Some EmptyString => name
       | Some ns => ns
       end |}.

(** [for service in self.services: if service.name == service_name:
    return service] *)
Fixpoint find_service (service_name' : string) (services : list Service)
  : option Service :=
  match services with
  | [] => None
  | service :: rest =>
      if decide (service_name service = service_name') then Some service
      else find_service service_name' rest
  end.

(** [Project.get_service]. [rsplit1] answers [None] exactly when
    ['_' in name] is false ([rsplit1_None]). *)
Definition get_service (self : Project) (name' : string) : result Service :=
  let '(project_name, service_name') :=
    match rsplit1 "_"%char name' with
    | Some (project_name, service_name') =>
        if decide (project_name ≠ namespace self) then
          (namespace self +:+ project_name, service_name')
        else (project_name, service_name')
    | None => (name self, name')
    end in
  if decide (project_name = name self) then
    match find_service service_name' (services self) with
    | Some service => Ok service
    | None => Err (NoSuchService name')
    end
  else Err (NoSuchService name').

Definition all_services (self : Project) : list Service := services self.

(** [_add_linked_services], by recursion on the links of the service;
    [_add_linked_services_unfold] gives it in the words of the source. *)
Fixpoint _add_linked_services (service : Service) : list Service :=
  match service_links service with
  | [] => [service]
  | links =>
      flat_map (λ link, _add_linked_services (fst link)) links ++ [service]
  end.

(** [uniques = []; [uniques.append(s) for s in services if s not in uniques]] *)
Definition uniques_of (services : list Service) : list Service :=
  foldl (λ uniques s, if decide (s ∈ uniques) then uniques else uniques ++ [s])
        [] services.

(** [Project.get_services]; [service_names] is [None] for the default.
    The docstring reads: "Preserves the original order of self.services
    where possible, reordering as needed to resolve links"; the body takes
    the services in the order of [service_names]. *)
Definition get_services (self : Project) (service_names : option (list string))
    (include_links : bool) : result (list Service) :=
  match service_names with
  | None | Some [] => Ok (all_services self)
  | Some service_names =>
      services ← for_each (get_service self) service_names;
      let services :=
        if include_links then flat_map _add_linked_services services
        else services in
      Ok (uniques_of services)
  end.

(** *** volumes_from *)

Section runtime_client.
(** [Container.from_id(self.client, volume_name)]: the container that the
    client finds under that id, [None] when the client raises
    [APIError]. The class [Container] and the client are not part of these
    sources and stay parameters. *)
Context {Container : Type} (from_id : string → option Container).

Inductive VolumeSource :=
  | FromService (service : Service)
  | FromContainer (container : Container).

(** The loop of [get_volumes_from]. [asked] records the ids that the client
    is asked for, in the order of the calls: the registry is asked first,
    the client only after [NoSuchService], and the error is raised only
    after [APIError]. *)
Fixpoint get_volumes_from_loop (self : Project) (owner : string)
    (volume_names : list string) (volumes_from : list VolumeSource)
    (asked : list string)
  : list string * result (list VolumeSource) :=
  match volume_names with
  | [] => (asked, Ok volumes_from)
  | volume_name :: rest =>
      match get_service self volume_name with
      | Ok service =>
          get_volumes_from_loop self owner rest
            (volumes_from ++ [FromService service]) asked
      | Err (NoSuchService _) =>
          match from_id volume_name with
          | Some container =>
              get_volumes_from_loop self owner rest
                (volumes_from ++ [FromContainer container])
                (asked ++ [volume_name])
          | None =>
              (asked ++ [volume_name],
               Err (ConfigurationError owner volume_name))
          end
      | Err e => (asked, Err e)
      end
  end.

(** [Project.get_volumes_from]: the ids asked of the client and the
    outcome. The source also takes the key ['volumes_from'] out of
    [service_dict]; the name is read after. *)
Definition get_volumes_from (self : Project) (service_dict : ServiceDict)
  : list string * result (list VolumeSource) :=
  get_volumes_from_loop self (sd_name service_dict)
    (get_volumes service_dict) [] [].
End runtime_client.

(** *** Lifecycle *)

(** The calls made on the services, in the order they are made. *)
Inductive Call :=
  | CallStart (service : Service)
  | CallStop (service : Service)
  | CallKill (service : Service)
  | CallRestart (service : Service).

(** [for service in self.get_services(service_names): service.start(...)] *)
Definition start (self : Project) (service_names : option (list string))
  : result (list Call) :=
  services ← get_services self service_names false;
  Ok (CallStart <$> (services : list Service)).

(** [for service in reversed(self.get_services(service_names)):
    service.stop(...)] *)
Definition stop (self : Project) (service_names : option (list string))
  : result (list Call) :=
  services ← get_services self service_names false;
  Ok (CallStop <$> reverse (services : list Service)).

Definition kill (self : Project) (service_names : option (list string))
  : result (list Call) :=
  services ← get_services self service_names false;
  Ok (CallKill <$> reverse (services : list Service)).

Definition restart (self : Project) (service_names : option (list string))
  : result (list Call) :=
  services ← get_services self service_names false;
  Ok (CallRestart <$> (services : list Service)).

(** ** Building a project *)

(** [link.split(':', 1)] for a link that contains [sep]: the parts before
    and after its first occurrence; [None] when [sep] does not occur. *)
Fixpoint split1 (sep : ascii) (s : string) : option (string * string) :=
  match s with
  | EmptyString => None
  | String c rest =>
      if decide (c = sep) then Some (EmptyString, rest)
      else match split1 sep rest with
           | Some (before, after) => Some (String c before, after)
           | None => None
           end
  end.

(** What the construction of a project raises: the [DependencyError] of the
    sort, the [ConfigurationError] of [get_links], what [get_service] and
    [get_volumes_from] raise, and the [ConfigurationError] of
    [from_config]. *)
Inductive BuildError :=
  | Dependency (e : DependencyError)
  | LinkDoesNotExist (name service_name : string)
      (* 'Service "%s" has a link to service "%s" which does not exist.'
         % (name, service_name) *)
  | Raised (e : ProjectError)
  | NoConfigurationOptions (service_name : string).
      (* 'Service "%s" doesn\'t have any configuration options. ...'
         % service_name *)

Inductive attempt (A : Type) :=
  | Built (a : A)
  | Failed (e : BuildError).
Arguments Built {A} a.
Arguments Failed {A} e.

(** [get_linked_service(link)], inside [Project.get_links]. *)
Definition get_linked_service (self : Project) (name' link : string)
  : attempt (Service * option string) :=
  let '(service_name', link_name) :=
    match split1 ":"%char link with
    | Some (service_name', link_name) => (service_name', Some link_name)
    | None => (link, None)
    end in
  match get_service self service_name' with
  | Ok service => Built (service, link_name)
  | Err (NoSuchService _) => Failed (LinkDoesNotExist name' service_name')
  | Err e => Failed (Raised e)
  end.

(** [map(get_linked_service, links)], the list that [map] builds in
    Python 2, for which the sources are written: the first link that
    raises ends the map. *)
Fixpoint map_links (self : Project) (name' : string) (links : list string)
  : attempt (list (Service * option string)) :=
  match links with
  | [] => Built []
  | link :: rest =>
      match get_linked_service self name' link with
      | Built service_link =>
          match map_links self name' rest with
          | Built service_links => Built (service_link :: service_links)
          | Failed e => Failed e
          end
      | Failed e => Failed e
      end
  end.

(** [Project.get_links]: [map(get_linked_service, config_links or [])]. *)
Definition Project_get_links (self : Project) (config_links : option (list string))
    (name' : string) : attempt (list (Service * option string)) :=
  map_links self name' (default [] config_links).

Section construction.
Context {Container : Type} (from_id : string → option Container).

(** The loop of [Project.from_dicts] over the sorted declarations:
    [services'] is [project.services] and [asked] the ids asked of the
    client so far. The source takes the keys ['links'] and
    ['volumes_from'] out of the dict it is at; the declarations are read
    as given, which is what the source does when they are pairwise
    different: no dict comes twice in the sorted list then.
    Modelled from the spec: the constructor of [Service], taken to build
    the object, the next one in the order of creation, with the name of
    the declaration and the links that [get_links] found. *)
Fixpoint from_dicts_loop (name' : string) (namespace' : option string)
    (service_dicts : list ServiceDict) (services' : list Service)
    (asked : list string) : list string * attempt (list Service) :=
  match service_dicts with
  | [] => (asked, Built services')
  | service_dict :: rest =>
      let project := new_project name' services' namespace' in
      match Project_get_links project (sd_links service_dict)
              (sd_name service_dict) with
      | Failed e => (asked, Failed e)
      | Built links =>
          match get_volumes_from from_id project service_dict with
          | (asked', Err e) => (asked ++ asked', Failed (Raised e))
          | (asked', Ok volumes_from) =>
              from_dicts_loop name' namespace' rest
                (services' ++
                   [mkService (length services') (sd_name service_dict) links])
                (asked ++ asked')
          end
      end
  end.

(** [Project.from_dicts]: the ids asked of the client and the project or
    the error; [None] when the sort reaches its bound, which it never
    does. *)
Definition from_dicts (name' : string) (service_dicts : list ServiceDict)
    (namespace' : option string) : option (list string * attempt Project) :=
  match sort_service_dicts service_dicts with
  | Done sorted =>
      let '(asked, built) := from_dicts_loop name' namespace' sorted [] [] in
      Some (asked,
            match built with
            | Built services' => Built (new_project name' services' namespace')
            | Failed e => Failed e
            end)
  | Raise e => Some ([], Failed (Dependency e))
  | Exhausted => None
  end.

(** A value of the configuration: a dict of options, whose key ['name'] is
    overwritten, or something else. The dicts are taken to be different
    objects. *)
Inductive ConfigValue :=
  | NotADict
  | Options (links volumes_from : option (list string))
      (options : gmap string string).

(** The loop of [Project.from_config] over [list(config.items())]. *)
Fixpoint from_config_loop (items : list (string * ConfigValue))
    (services' : list ServiceDict) : attempt (list ServiceDict) :=
  match items with
  | [] => Built services'
  | (service_name', service) :: rest =>
      match service with
      | NotADict => Failed (NoConfigurationOptions service_name')
      | Options links volumes_from options =>
          from_config_loop rest
            (services' ++
               [mkServiceDict service_name' links volumes_from options])
      end
  end.

(** [Project.from_config], on the items of [config] in the order in which
    the dict yields them; the parameter [project_cache] is not used. *)
Definition from_config (name' : string) (config : list (string * ConfigValue))
    (namespace' : option string) : option (list string * attempt Project) :=
  match from_config_loop config [] with
  | Built services' => from_dicts name' services' namespace'
  | Failed e => Some ([], Failed e)
  end.
End construction.

(** *** up, pull and containers *)

(** The three ways in which [up] gets the containers of a service. *)
Inductive CreateFunc :=
  | FreshStart               (* service.fresh_start *)
  | RecreateContainers       (* service.recreate_containers *)
  | StartOrCreateContainers. (* service.start_or_create_containers *)

(** The calls that [up] and [pull] make on the services, in the order
    they are made. *)
Inductive Event :=
  | EventCreate (create_func : CreateFunc) (service : Service)
      (insecure_registry detach do_build : bool)
  | EventPull (service : Service) (insecure_registry : bool).

Section services_runtime.
(** The methods of [Service] and [Container] and the listing of the
    client that [Project] calls: they are not part of these sources and
    stay parameters. [create] is what the chosen method of a service
    returns, [listed] is [self.client.containers(all=stopped)]. *)
Context {Container ContainerInfo : Type}.
Context (create : CreateFunc → Service → bool → bool → bool → list Container).
Context (listed : bool → list ContainerInfo).
Context (has_container : Service → ContainerInfo → bool → bool).
Context (from_ps : ContainerInfo → Container).

(** [Project.up]: the calls on the services and [running_containers].
    The choice of [create_func] is the same for every service. *)
Definition up (self : Project) (service_names : option (list string))
    (start_links recreate insecure_registry detach do_build fresh_start : bool)
  : result (list Event * list Container) :=
  services ← get_services self service_names start_links;
  let create_func :=
    if fresh_start then FreshStart
    else if recreate then RecreateContainers
    else StartOrCreateContainers in
  Ok ((λ service,
         EventCreate create_func service insecure_registry detach do_build)
        <$> (services : list Service),
      flat_map (λ service,
                  create create_func service insecure_registry detach do_build)
               services).

(** [Project.pull] *)
Definition pull (self : Project) (service_names : option (list string))
    (insecure_registry : bool) : result (list Event) :=
  services ← get_services self service_names true;
  Ok ((λ service, EventPull service insecure_registry)
        <$> (services : list Service)).

(** The comprehension of [Project.containers] over the listed containers:
    [get_services] is called anew for each of them. *)
Fixpoint containers_of (self : Project) (service_names : option (list string))
    (one_off : bool) (listing : list ContainerInfo) : result (list Container) :=
  match listing with
  | [] => Ok []
  | container :: rest =>
      services ← get_services self service_names false;
      found ← containers_of self service_names one_off rest;
      Ok (((λ _, from_ps container)
             <$> filter (λ service : Service,
                           has_container service container one_off = true)
                        services)
          ++ found)
  end.

(** [Project.containers] *)
Definition containers (self : Project) (service_names : option (list string))
    (stopped one_off : bool) : result (list Container) :=
  containers_of self service_names one_off (listed stopped).
End services_runtime.

(** The services of [tests/unit/project_test.py]. *)
Definition db : Service := mkService 1 "db" [].
Definition cache : Service := mkService 2 "cache" [].
Definition web : Service := mkService 3 "web" [(db, Some "database")].
Definition console : Service := mkService 4 "console" [(web, Some "web")].

(** * The vocabulary of the statements *)

(** ** Collections of declarations *)

Definition unique_names (services : list ServiceDict) : Prop :=
  NoDup (sd_name <$> services).

(** [a] and [b] are declarations of the collection and [a] references
    [b]. *)
Definition depends_on (services : list ServiceDict) (a b : ServiceDict)
  : Prop :=
  a ∈ services ∧ b ∈ services ∧ references a b.

(** No declaration reaches itself through references: no self-reference
    and no longer cycle. *)
Definition acyclic (services : list ServiceDict) : Prop :=
  ∀ x, ¬ tc (depends_on services) x x.

(** No declaration of the collection is referenced by one of them. *)
Definition unrelated (services : list ServiceDict) : Prop :=
  ∀ a b, a ∈ services → b ∈ services → ¬ references a b.

(** [x] has one link, to [y], and no volumes_from entry. *)
Definition links_only_to (x y : ServiceDict) : Prop :=
  get_service_names (get_links x) = [sd_name y] ∧ get_volumes x = [].

Definition name_le (x y : ServiceDict) : Prop := (sd_name x ≤ sd_name y)%string.

(** [b] comes before [a] in [out]. *)
Definition precedes {A} (out : list A) (b a : A) : Prop :=
  ∃ i j, out !! i = Some b ∧ out !! j = Some a ∧ i < j.

(** ** The states of the sort *)

(** What a completed call of [visit] leaves behind: the marks as they
    were, the declarations [pre] moved from [unmarked] to the front of
    [sorted_services], none of them in progress. *)
Record grows (st st' : SortState) (pre : list ServiceDict) : Prop := {
  grows_marked : temporary_marked st' = temporary_marked st;
  grows_sorted : sorted_services st' = pre ++ sorted_services st;
  grows_unmarked : unmarked st ≡ₚ pre ++ unmarked st';
  grows_fresh : Forall (λ x, sd_name x ∉ temporary_marked st) pre
}.

Definition names (services : list ServiceDict) : gset string :=
  list_to_set (sd_name <$> services).

(** Every declaration of [l] is followed in [l] by all the declarations
    of the collection that reference it. *)
Definition ordered (services l : list ServiceDict) : Prop :=
  ∀ l1 x l2, l = l1 ++ x :: l2 →
    ∀ m, m ∈ services → references m x → m ∈ l2.

Definition accounted (services : list ServiceDict) (st : SortState) : Prop :=
  sorted_services st ++ unmarked st ≡ₚ services.

(** A chain of declarations of the collection, each referencing the next
    one: the declarations in progress, the latest first. *)
Fixpoint chain (services p : list ServiceDict) : Prop :=
  match p with
  | [] => True
  | y :: p' =>
      y ∈ services ∧ (if p' is x :: _ then references y x else True) ∧
      chain services p'
  end.

Definition marks (p : list ServiceDict) : gset string :=
  list_to_set (sd_name <$> p).

(** The error of a chain [q] of declarations in progress, with distinct
    names, that closes on [m]. *)
Definition closes (services : list ServiceDict) (e : DependencyError) : Prop :=
  ∃ m q, chain services (m :: q) ∧ NoDup (sd_name <$> q) ∧
         sd_name m ∈ marks q ∧ e = closing_error m (marks q).

(** ** The registry *)

(** What the loop of [get_service] answers for [service_name'], the
    error carrying the key that was asked for. *)
Definition lookup_service (self : Project) (key service_name' : string)
  : result Service :=
  match find_service service_name' (services self) with
  | Some service => Ok service
  | None => Err (NoSuchService key)
  end.

(** The first occurrence of each service, in the order of the list. *)
Fixpoint keep_first (l : list Service) : list Service :=
  match l with
  | [] => []
  | x :: l' => x :: filter (λ y, y ≠ x) (keep_first l')
  end.

(** In a list of closures, every occurrence of a service comes after an
    occurrence of each service it links to. *)
Definition links_first (l : list Service) : Prop :=
  ∀ l1 s l2, l = l1 ++ s :: l2 → ∀ t, t ∈ get_linked_services s → t ∈ l1.

Section resolution.
Context {Container : Type} (from_id : string → option Container).
Variable self : Project.

(** What a volumes_from entry stands for: the service of that name,
    or, when the registry has none, the container of that id. *)
Inductive resolves : string → VolumeSource → Prop :=
  | resolves_service volume_name service :
      get_service self volume_name = Ok service →
      resolves volume_name (FromService service)
  | resolves_container volume_name container :
      get_service self volume_name = Err (NoSuchService volume_name) →
      from_id volume_name = Some container →
      resolves volume_name (FromContainer container).

(** The entry that neither the registry nor the client knows. *)
Definition unresolved (volume_name : string) : Prop :=
  get_service self volume_name = Err (NoSuchService volume_name) ∧
  from_id volume_name = None.

(** The entry that the registry does not know. *)
Definition missed (volume_name : string) : Prop :=
  get_service self volume_name = Err (NoSuchService volume_name).
End resolution.

#[global] Instance ProjectError_eq_dec : EqDecision ProjectError.
Proof. solve_decision. Defined.

#[global] Instance missed_dec self volume_name :
  Decision (missed self volume_name).
Proof.
  unfold missed. destruct (get_service self volume_name) as [?|e].
  - by right.
  - destruct (decide (e = NoSuchService volume_name)) as [->|];
      [by left|right; congruence].
Defined.

(** Cases on the declarations of an explicit collection. *)
Ltac each_declaration H :=
  repeat (apply elem_of_cons in H as [->|H]); [..|by apply elem_of_nil in H].

(** ** Links *)

(** [t] is one of the services that [s] links to. *)
Definition links_to (s t : Service) : Prop := t ∈ get_linked_services s.

(** What [get_links] makes of a link of a declaration: the name before
    the first [':'] is the name of the linked service, with or without a
    project name and ['_'] in front, and the alias is what follows the
    first [':']. *)
Definition link_of (link : string) (l : Service * option string) : Prop :=
  (split_head ":" link = service_name l.1 ∨
   ∃ candidate,
     split_head ":" link = candidate +:+ String "_" (service_name l.1)) ∧
  l.2 = snd <$> split1 ":" link.

(** The service that stands for a declaration: its name and, link by
    link, its links. *)
Definition stands_for (d : ServiceDict) (s : Service) : Prop :=
  service_name s = sd_name d ∧ Forall2 link_of (get_links d) (service_links s).

(** * Proofs *)

(** ** Lists *)

Lemma remove_first_perm x l : x ∈ l → l ≡ₚ x :: remove_first x l.
Proof.
  induction l as [|y l IH]; intros Hx; [by apply elem_of_nil in Hx|].
  simpl. destruct (decide (x = y)) as [->|Hne]; [done|].
  apply elem_of_cons in Hx as [?|Hx]; [done|].
  rewrite (IH Hx) at 1. apply Permutation_swap.
Qed.

Lemma insert_by_name_perm n l : insert_by_name n l ≡ₚ n :: l.
Proof.
  induction l as [|m l IH]; simpl; [done|].
  case_decide; [done|]. rewrite IH. apply Permutation_swap.
Qed.

Lemma sorted_by_name_perm services : sorted_by_name services ≡ₚ services.
Proof.
  induction services as [|n l IH]; simpl; [done|].
  by rewrite insert_by_name_perm, IH.
Qed.

Lemma elem_of_dependents services n m :
  m ∈ dependents services n ↔ references m n ∧ m ∈ services.
Proof. apply (list_elem_of_filter (λ m, references m n)). Qed.

Lemma size_list_to_set_le (l : list string) :
  size (list_to_set (C:=gset string) l) ≤ length l.
Proof.
  induction l as [|x l IH]; simpl; [done|].
  rewrite size_union_alt, size_singleton.
  assert (size (list_to_set (C:=gset string) l ∖ {[x]})
          ≤ size (list_to_set (C:=gset string) l));
    [apply subseteq_size; set_solver|lia].
Qed.

Section sort_proofs.
Variable services : list ServiceDict.

Lemma grows_refl st : grows st st [].
Proof. by split. Qed.

Lemma grows_trans st1 st2 st3 pre1 pre2 :
  grows st1 st2 pre1 → grows st2 st3 pre2 → grows st1 st3 (pre2 ++ pre1).
Proof.
  intros [Hm1 Hs1 Hu1 Hf1] [Hm2 Hs2 Hu2 Hf2]. split.
  - congruence.
  - by rewrite Hs2, Hs1, (assoc_L (++)).
  - rewrite Hu1, Hu2. rewrite !(assoc (++)).
    f_equiv. apply Permutation_app_comm.
  - apply Forall_app. split; [|done]. by rewrite <- Hm1.
Qed.

Lemma grows_settle n st st' pre :
  sd_name n ∉ temporary_marked st → n ∈ unmarked st →
  grows (mark n st) st' pre → grows st (settle n st') (n :: pre).
Proof.
  intros Hn Hin [Hm Hs Hu Hf]. simpl in *.
  assert (n ∈ unmarked st') as Hin'.
  { rewrite Hu in Hin. apply elem_of_app in Hin as [Hin|]; [|done].
    rewrite Forall_forall in Hf. specialize (Hf _ Hin). set_solver. }
  split; simpl.
  - rewrite Hm. set_solver.
  - by rewrite Hs.
  - rewrite Hu. rewrite (remove_first_perm n (unmarked st')) at 1 by done.
    by rewrite Permutation_middle.
  - constructor; [done|]. eapply Forall_impl; [exact Hf|].
    intros x Hx. set_solver.
Qed.

Lemma visit_each_grows f ms st st' :
  (∀ m st st', f m st = Done st' → ∃ pre, grows st st' pre) →
  visit_each f ms st = Done st' → ∃ pre, grows st st' pre.
Proof.
  intros Hf. revert st. induction ms as [|m ms IH]; intros st Hv; simpl in Hv.
  - injection Hv as <-. eexists. apply grows_refl.
  - destruct (f m st) as [st1| |] eqn:Hm; [|done..].
    destruct (Hf _ _ _ Hm) as [pre1 H1].
    destruct (IH _ Hv) as [pre2 H2].
    eexists. eapply grows_trans; eassumption.
Qed.

Lemma visit_grows depth n st st' :
  visit services depth n st = Done st' →
  ∃ pre, grows st st' pre ∧ (n ∈ unmarked st → pre ≠ []).
Proof.
  revert n st st'. induction depth as [|depth IH]; intros n st st' Hv;
    simpl in Hv; [done|].
  destruct (decide (sd_name n ∈ temporary_marked st)) as [|Hn]; [done|].
  destruct (decide (n ∈ unmarked st)) as [Hin|Hin].
  - destruct (visit_each _ _ _) as [st1| |] eqn:Hd; [|done..].
    injection Hv as <-.
    apply visit_each_grows in Hd as [pre Hpre].
    + exists (n :: pre). split; [by apply grows_settle|done].
    + intros m st2 st2' Hm. destruct (IH _ _ _ Hm) as (pre' & ? & _). eauto.
  - injection Hv as <-. exists []. split; [apply grows_refl|done].
Qed.

Lemma grows_perm st st' pre :
  grows st st' pre →
  sorted_services st' ++ unmarked st' ≡ₚ sorted_services st ++ unmarked st.
Proof.
  intros [_ Hs Hu _]. rewrite Hs, Hu, !(assoc (++)).
  f_equiv. apply Permutation_app_comm.
Qed.

Lemma grows_unmarked_subseteq st st' pre :
  grows st st' pre → unmarked st' ⊆ unmarked st.
Proof. intros [_ _ Hu _] x Hx. rewrite Hu. set_solver. Qed.

Lemma grows_unmarked_length st st' pre :
  grows st st' pre →
  length (unmarked st) = length pre + length (unmarked st').
Proof. intros [_ _ Hu _]. by rewrite Hu, length_app. Qed.

(** [visit_each] stops at the first call that does not complete; until
    then the marks stay as they are. *)
Lemma visit_each_stops depth ms st (r : outcome SortState) :
  visit_each (visit services depth) ms st = r →
  (∀ st', r ≠ Done st') →
  ∃ m st1 pre, m ∈ ms ∧ grows st st1 pre ∧ visit services depth m st1 = r.
Proof.
  revert st. induction ms as [|m ms IH]; intros st Hv Hr; simpl in Hv.
  - by destruct (Hr st).
  - destruct (visit services depth m st) as [st1| |] eqn:Hm.
    + destruct (IH _ Hv Hr) as (m' & st2 & pre & Hin & Hg & Hv').
      apply visit_grows in Hm as (pre1 & Hg1 & _).
      exists m', st2, (pre ++ pre1). split; [set_solver|].
      split; [by eapply grows_trans|done].
    + exists m, st, []. subst r. split; [set_solver|].
      split; [apply grows_refl|done].
    + exists m, st, []. subst r. split; [set_solver|].
      split; [apply grows_refl|done].
Qed.

(** *** The bounds are never reached *)

Lemma visit_not_exhausted depth n st :
  unmarked st ⊆ services →
  size (names services ∖ temporary_marked st) < depth →
  visit services depth n st ≠ Exhausted.
Proof.
  revert n st. induction depth as [|depth IH]; intros n st Hsub Hsz; [lia|].
  simpl. destruct (decide (sd_name n ∈ temporary_marked st)) as [|Hn]; [done|].
  destruct (decide (n ∈ unmarked st)) as [Hin|]; [|done].
  destruct (visit_each _ _ _) as [| |] eqn:Hd; [done..|].
  apply visit_each_stops in Hd as (m & st1 & pre & _ & Hg & Hm); [|done].
  exfalso. revert Hm. apply IH.
  - etrans; [by eapply grows_unmarked_subseteq|done].
  - rewrite (grows_marked _ _ _ Hg). simpl.
    assert (sd_name n ∈ names services) as Hnm.
    { apply elem_of_list_to_set, list_elem_of_fmap. exists n.
      split; [done|]. by apply Hsub. }
    assert (names services ∖ (temporary_marked st ∪ {[sd_name n]})
              ⊂ names services ∖ temporary_marked st) as Hlt%subset_size;
      [|lia].
    set_solver.
Qed.

(** *** What a completed sort returns *)

Lemma ordered_cons n l :
  ordered services l → (∀ m, m ∈ services → references m n → m ∈ l) →
  ordered services (n :: l).
Proof.
  intros Hl Hn [|y l1] x l2 Heq m Hm Hr; simplify_eq/=; [by apply Hn|].
  by eapply Hl.
Qed.

Lemma visit_ordered depth n st st' :
  n ∈ services → accounted services st → ordered services (sorted_services st) →
  visit services depth n st = Done st' →
  ordered services (sorted_services st') ∧ n ∈ sorted_services st'.
Proof.
  revert n st st'. induction depth as [|depth IH];
    intros n st st' Hn Hacc Hord Hv; [done|].
  simpl in Hv.
  destruct (decide (sd_name n ∈ temporary_marked st)) as [|Hnm]; [done|].
  destruct (decide (n ∈ unmarked st)) as [Hin|Hin].
  - destruct (visit_each _ _ _) as [st1| |] eqn:Hd; [|done..].
    injection Hv as <-. simpl.
    cut (ordered services (sorted_services st1) ∧
         Forall (.∈ sorted_services st1) (dependents services n)).
    { intros [Ho Hall]. split; [|set_solver].
      apply ordered_cons; [done|]. intros m Hm Hr.
      rewrite Forall_forall in Hall. apply Hall.
      by apply elem_of_dependents. }
    assert (Forall (.∈ services) (dependents services n)) as Hdeps.
    { apply Forall_forall. by intros m [_ ?]%elem_of_dependents. }
    assert (accounted services (mark n st)) as Hacc1 by done.
    assert (ordered services (sorted_services (mark n st))) as Hord1 by done.
    revert Hd Hdeps Hacc1 Hord1. generalize (mark n st) (dependents services n).
    intros st0 ms. revert st0.
    induction ms as [|m ms IHms]; intros st0 Hd Hdeps Hacc1 Hord1; simpl in Hd.
    { by injection Hd as <-. }
    destruct (visit services depth m st0) as [st2| |] eqn:Hm; [|done..].
    apply Forall_cons in Hdeps as [Hm1 Hms].
    destruct (IH _ _ _ Hm1 Hacc1 Hord1 Hm) as [Ho2 Hin2].
    apply visit_grows in Hm as (pre & Hg & _).
    destruct (IHms st2 Hd Hms) as [Ho Hall]; [|done|].
    { unfold accounted. by rewrite (grows_perm _ _ _ Hg). }
    split; [done|]. constructor; [|done].
    apply visit_each_grows in Hd as [pre' Hg'].
    + rewrite (grows_sorted _ _ _ Hg'). set_solver.
    + intros ??? Hv'. apply visit_grows in Hv' as (? & ? & _). eauto.
  - injection Hv as <-. split; [done|].
    unfold accounted in Hacc. rewrite <- Hacc in Hn. set_solver.
Qed.

(** *** What a failed sort reports *)

Lemma visit_raise depth n st e p :
  temporary_marked st = marks p → NoDup (sd_name <$> p) →
  chain services (n :: p) →
  visit services depth n st = Raise e → closes services e.
Proof.
  revert n st p. induction depth as [|depth IH]; intros n st p Ht Hnd Hch Hv;
    [done|].
  simpl in Hv.
  destruct (decide (sd_name n ∈ temporary_marked st)) as [Hnm|Hnm].
  - injection Hv as <-. exists n, p. rewrite <- Ht.
    by rewrite Ht in Hnm |- * at 1.
  - destruct (decide (n ∈ unmarked st)) as [Hin|]; [|done].
    destruct (visit_each _ _ _) as [|e'|] eqn:Hd; [done| |done].
    injection Hv as ->.
    apply visit_each_stops in Hd as (m & st1 & pre & Hm & Hg & Hv); [|done].
    apply elem_of_dependents in Hm as [Hr Hm].
    apply (IH m st1 (n :: p)); [| | |done].
    + rewrite (grows_marked _ _ _ Hg). simpl. rewrite Ht.
      unfold marks. simpl. set_solver.
    + simpl. constructor; [|done]. rewrite Ht in Hnm.
      by rewrite <- (elem_of_list_to_set (C:=gset string)).
    + by split.
Qed.

(** *** The loop *)

Lemma visit_unmarked_spec rounds st :
  accounted services st → ordered services (sorted_services st) →
  temporary_marked st = ∅ → length (unmarked st) ≤ rounds →
  match visit_unmarked services rounds st with
  | Done out => out ≡ₚ services ∧ ordered services out
  | Raise e => closes services e
  | Exhausted => False
  end.
Proof.
  revert st. induction rounds as [|rounds IH]; intros st Hacc Hord Ht Hlen.
  - destruct (unmarked st) as [|x l] eqn:Hu; [|simpl in Hlen; lia].
    unfold visit_unmarked. rewrite Hu. simpl. split; [|done].
    unfold accounted in Hacc. by rewrite Hu, (right_id_L [] (++)) in Hacc.
  - cbn [visit_unmarked]. destruct (last (unmarked st)) as [n|] eqn:Hlast.
    + assert (n ∈ unmarked st) as Hin.
      { apply last_Some in Hlast as [l' ->]. set_solver. }
      assert (n ∈ services) as Hn.
      { unfold accounted in Hacc. rewrite <- Hacc. set_solver. }
      destruct (visit services (S (length services)) n st) as [st'|e|] eqn:Hv.
      * destruct (visit_ordered _ _ _ _ Hn Hacc Hord Hv) as [Hord' _].
        apply visit_grows in Hv as (pre & Hg & Hpre).
        apply IH; [|done| |].
        -- unfold accounted. by rewrite (grows_perm _ _ _ Hg).
        -- by rewrite (grows_marked _ _ _ Hg).
        -- apply grows_unmarked_length in Hg. specialize (Hpre Hin).
           destruct pre; [done|]. simpl in Hg. lia.
      * eapply (visit_raise _ n st e []);
          [by rewrite Ht|constructor|by split|done].
      * revert Hv. apply visit_not_exhausted.
        -- intros x Hx. unfold accounted in Hacc. rewrite <- Hacc. set_solver.
        -- rewrite Ht, difference_empty_L. apply Nat.lt_succ_r. unfold names.
           rewrite <- (length_fmap sd_name services). apply size_list_to_set_le.
    + apply last_None in Hlast. split; [|done].
      unfold accounted in Hacc. by rewrite Hlast, (right_id_L [] (++)) in Hacc.
Qed.

Lemma sort_service_dicts_spec :
  match sort_service_dicts services with
  | Done out => out ≡ₚ services ∧ ordered services out
  | Raise e => closes services e
  | Exhausted => False
  end.
Proof.
  apply visit_unmarked_spec; simpl; [| |done|].
  - unfold accounted. simpl. apply sorted_by_name_perm.
  - by intros [|??] ???; simplify_eq/=.
  - by rewrite sorted_by_name_perm.
Qed.

End sort_proofs.

(** ** The order of the output *)

Lemma unique_names_inj services a b :
  unique_names services → a ∈ services → b ∈ services →
  sd_name a = sd_name b → a = b.
Proof.
  unfold unique_names. induction services as [|x l IH]; intros Hnd Ha Hb Heq.
  { by apply elem_of_nil in Ha. }
  rewrite fmap_cons in Hnd. apply NoDup_cons in Hnd as [Hx Hnd].
  apply elem_of_cons in Ha as [->|Ha]; apply elem_of_cons in Hb as [->|Hb];
    [done| | |by apply IH].
  - destruct Hx. rewrite Heq. by apply list_elem_of_fmap_2.
  - destruct Hx. rewrite <- Heq. by apply list_elem_of_fmap_2.
Qed.

Lemma unique_names_NoDup services : unique_names services → NoDup services.
Proof. apply NoDup_fmap_1. Qed.

Section order.
Variable services : list ServiceDict.

Lemma ordered_after out y x :
  ordered services out → tc (depends_on services) y x →
  ∀ l1 l2, out = l1 ++ x :: l2 → y ∈ l2.
Proof.
  intros Hord Htc.
  induction Htc as [y x (Hy & _ & Hr)|y z x (Hy & _ & Hr) _ IH];
    intros l1 l2 ->.
  - by eapply Hord.
  - specialize (IH _ _ eq_refl).
    apply list_elem_of_split in IH as (t1 & t2 & ->).
    assert (y ∈ t2); [|set_solver].
    eapply (Hord (l1 ++ x :: t1)); [|done..]. by rewrite <- (assoc (++)).
Qed.

Lemma ordered_acyclic out :
  ordered services out → out ≡ₚ services → acyclic services.
Proof.
  intros Hord Hperm x Hx.
  assert (x ∈ out) as Hin.
  { rewrite Hperm. by inversion Hx as [?? (?&_)|??? (?&_)]; subst. }
  apply list_elem_of_split_r in Hin as (l1 & l2 & -> & Hnot).
  destruct Hnot. by eapply ordered_after.
Qed.

Lemma chain_elem_of p x : chain services p → x ∈ p → x ∈ services.
Proof.
  induction p as [|y p IH]; intros Hch Hx; [by apply elem_of_nil in Hx|].
  destruct Hch as (Hy & _ & Hp).
  apply elem_of_cons in Hx as [->|Hx]; auto.
Qed.

Lemma chain_tc y q1 x q2 :
  chain services (y :: q1 ++ x :: q2) → tc (depends_on services) y x.
Proof.
  revert y. induction q1 as [|z q1 IH]; intros y (Hy & Hr & Hch).
  - apply tc_once. split; [done|]. split; [|done]. by destruct Hch.
  - eapply tc_l; [|by apply IH].
    split; [done|]. split; [|done]. by destruct Hch.
Qed.

(** With unique names, a chain that closes is a cycle. *)
Lemma closes_cycle e :
  unique_names services → closes services e →
  ∃ m marked, tc (depends_on services) m m ∧ e = closing_error m marked.
Proof.
  intros Hu (m & q & Hch & _ & Hm & ->). exists m, (marks q). split; [|done].
  apply elem_of_list_to_set, list_elem_of_fmap in Hm as (m' & Heq & Hm').
  assert (m' = m) as ->.
  { eapply unique_names_inj; [done| | |done].
    - eapply chain_elem_of; [done|]. by right.
    - by destruct Hch. }
  apply list_elem_of_split in Hm' as (q1 & q2 & ->). by eapply chain_tc.
Qed.

Lemma sort_service_dicts_terminates :
  sort_service_dicts services ≠ Exhausted.
Proof.
  pose proof (sort_service_dicts_spec services) as H.
  by destruct (sort_service_dicts services).
Qed.

End order.

(** C1: for a collection of declarations with unique names and no
    self-reference or longer cycle through links and volumes_from,
    [sort_service_dicts] returns a permutation of the input in which every
    declaration [b] whose name is among the link targets or the
    volumes_from entries of a declaration [a] stands strictly before [a]. *)
Theorem sort_service_dicts_dependency_order services :
  unique_names services → acyclic services →
  ∃ out, sort_service_dicts services = Done out ∧
         out ≡ₚ services ∧ NoDup out ∧
         ∀ a b, a ∈ services → b ∈ services → references a b →
                precedes out b a.
Proof.
  intros Hu Hac. pose proof (sort_service_dicts_spec services) as H.
  destruct (sort_service_dicts services) as [out|e|]; [|exfalso..].
  - destruct H as [Hperm Hord]. exists out. split; [done|]. split; [done|].
    split; [rewrite Hperm; by apply unique_names_NoDup|].
    intros a b Ha Hb Hr.
    assert (b ∈ out) as Hin by by rewrite Hperm.
    apply list_elem_of_split in Hin as (l1 & l2 & ->).
    assert (a ∈ l2) as (i & Hi)%list_elem_of_lookup by by eapply Hord.
    exists (length l1), (length l1 + S i). split; [|split; [|lia]].
    + by rewrite list_lookup_middle.
    + rewrite lookup_app_r by lia.
      by replace (length l1 + S i - length l1) with (S i) by lia.
  - apply closes_cycle in H as (m & _ & Hm & _); [|done]. by apply (Hac m).
  - done.
Qed.

Lemma acyclic_ranked services (rank : ServiceDict → nat) :
  (∀ a b, depends_on services a b → rank b < rank a) → acyclic services.
Proof.
  intros Hrank.
  assert (∀ a b, tc (depends_on services) a b → rank b < rank a) as Htc.
  { intros a b Hab. induction Hab as [??|???? _ IH]; [by apply Hrank|].
    etrans; [exact IH|]. by apply Hrank. }
  intros x Hx%Htc. lia.
Qed.

Lemma sort_service_dicts_dependency_order_witness :
  let services :=
    [decl "web" ["db"] []; decl "db" [] ["volume"]; decl "volume" [] []] in
  unique_names services ∧ acyclic services ∧
  ∃ out, sort_service_dicts services = Done out ∧
         out ≡ₚ services ∧ NoDup out ∧
         ∀ a b, a ∈ services → b ∈ services → references a b →
                precedes out b a.
Proof.
  intros services.
  assert (unique_names services) as Hu by (by apply (bool_decide_unpack _)).
  assert (acyclic services) as Hac.
  { apply (acyclic_ranked _ (λ d,
      if decide (sd_name d = "web") then 2
      else if decide (sd_name d = "db") then 1 else 0)).
    intros a b (Ha & Hb & Hr).
    each_declaration Ha; each_declaration Hb;
      first [ by apply (bool_decide_unpack _)
            | exfalso; revert Hr; by apply (bool_decide_unpack (¬ _)) ]. }
  split; [done|]. split; [done|].
  by apply sort_service_dicts_dependency_order.
Defined.

(** *** Self-references *)

Lemma closing_error_self_link s marked :
  sd_name s ∈ get_service_names (get_links s) →
  closing_error s marked = SelfLink (sd_name s).
Proof. intros Hs. unfold closing_error. by rewrite decide_True. Qed.

Lemma closing_error_self_volume s marked :
  sd_name s ∉ get_service_names (get_links s) → sd_name s ∈ get_volumes s →
  closing_error s marked = SelfVolume (sd_name s).
Proof.
  intros Hl Hv. unfold closing_error. by rewrite decide_False, decide_True.
Qed.

Lemma closing_error_circular m marked :
  ¬ references m m → closing_error m marked = CircularImport marked.
Proof.
  intros Hm. unfold closing_error.
  rewrite !decide_False; [done|..]; intros ?; apply Hm; [by right|by left].
Qed.

(** A collection with a cycle is not sorted. *)
Lemma sort_service_dicts_cycle_raises services x :
  tc (depends_on services) x x →
  ∃ e, sort_service_dicts services = Raise e ∧ closes services e.
Proof.
  intros Hx. pose proof (sort_service_dicts_spec services) as H.
  destruct (sort_service_dicts services) as [out|e|]; [|by eauto|done].
  destruct H as [Hperm Hord]. by destruct (ordered_acyclic _ _ Hord Hperm x).
Qed.

Lemma references_name a b b' :
  sd_name b = sd_name b' → references a b → references a b'.
Proof. unfold references. by intros ->. Qed.

(** The declaration on which a chain closes reaches itself, and the error
    is its closing error, whether the names are unique or not. *)
Lemma closes_closing_error services e :
  closes services e →
  ∃ m marked, tc (depends_on services) m m ∧ e = closing_error m marked.
Proof.
  intros (m & q & Hch & _ & Hm & ->). exists m, (marks q). split; [|done].
  apply elem_of_list_to_set, list_elem_of_fmap in Hm as (m' & Heq & Hm').
  apply list_elem_of_split in Hm' as (q1 & q2 & ->).
  assert (m ∈ services) as Hin by by destruct Hch.
  destruct q1 as [|z q1 _] using rev_ind.
  - apply tc_once. split; [done|]. split; [done|].
    destruct Hch as (_ & Hr & _). by apply (references_name m m').
  - replace ((q1 ++ [z]) ++ m' :: q2) with (q1 ++ z :: m' :: q2) in Hch
      by (by rewrite <- (assoc_L (++))).
    assert (tc (depends_on services) m z) as Hmz by by eapply chain_tc.
    eapply tc_r; [done|].
    assert (chain services (z :: m' :: q2)) as (Hz & Hr & _).
    { clear -Hch. revert m Hch. induction q1 as [|y q1 IH]; intros m Hch.
      - by destruct Hch as (_ & _ & ?).
      - destruct Hch as (_ & _ & Hch). by eapply IH. }
    split; [done|]. split; [done|]. by apply (references_name z m').
Qed.

(** C4, as the source has it: in a collection in which the self-reference
    of the declaration [s] is the only dependency cycle,
    [sort_service_dicts] fails with the self-link error naming [s] when
    [s] has its own name among its link targets, and with the self-volume
    error naming [s] when [s] has its own name among its volumes_from
    entries and not among its link targets; neither is the generic
    circular error. *)
Theorem sort_service_dicts_self_reference services s :
  s ∈ services →
  (∀ x, tc (depends_on services) x x → x = s) →
  (sd_name s ∈ get_service_names (get_links s) →
     sort_service_dicts services = Raise (SelfLink (sd_name s))) ∧
  (sd_name s ∉ get_service_names (get_links s) →
   sd_name s ∈ get_volumes s →
     sort_service_dicts services = Raise (SelfVolume (sd_name s))) ∧
  (∀ marked, SelfLink (sd_name s) ≠ CircularImport marked ∧
             SelfVolume (sd_name s) ≠ CircularImport marked).
Proof.
  intros Hs Honly.
  assert (references s s →
          ∃ marked,
            sort_service_dicts services = Raise (closing_error s marked))
    as Hraise.
  { intros Hr.
    destruct (sort_service_dicts_cycle_raises services s) as (e & -> & He).
    { by apply tc_once. }
    apply closes_closing_error in He as (m & marked & Hm & ->).
    rewrite (Honly _ Hm). eauto. }
  split; [|split; [|done]].
  - intros Hl. destruct Hraise as [marked ->]; [by left|].
    by rewrite closing_error_self_link.
  - intros Hl Hv. destruct Hraise as [marked ->]; [by right|].
    by rewrite closing_error_self_volume.
Qed.

Lemma tc_source {A} (R : relation A) x y : tc R x y → ∃ z, R x z.
Proof. destruct 1; eauto. Qed.

Lemma only_cycle_of_explicit services s :
  (∀ x z, x ∈ services → z ∈ services → references x z → x = s) →
  ∀ x, tc (depends_on services) x x → x = s.
Proof. intros H x (z & Hx & Hz & Hr)%tc_source. eauto. Qed.

Lemma sort_service_dicts_self_reference_witness :
  sort_service_dicts [decl "web" ["db"; "web:self"] []; decl "db" [] []]
    = Raise (SelfLink "web") ∧
  sort_service_dicts [decl "data" [] ["data"]; decl "db" [] []]
    = Raise (SelfVolume "data") ∧
  sort_service_dicts [decl "a" ["a"] []; decl "a" [] []; decl "b" [] []]
    = Raise (SelfLink "a").
Proof.
  split; [|split].
  - apply (sort_service_dicts_self_reference
             [decl "web" ["db"; "web:self"] []; decl "db" [] []]
             (decl "web" ["db"; "web:self"] [])).
    + by apply (bool_decide_unpack _).
    + apply only_cycle_of_explicit. intros x z Hx Hz Hr.
      each_declaration Hx; [done|]. exfalso.
      each_declaration Hz; revert Hr; by apply (bool_decide_unpack (¬ _)).
    + by apply (bool_decide_unpack _).
  - apply (sort_service_dicts_self_reference
             [decl "data" [] ["data"]; decl "db" [] []]
             (decl "data" [] ["data"])).
    + by apply (bool_decide_unpack _).
    + apply only_cycle_of_explicit. intros x z Hx Hz Hr.
      each_declaration Hx; [done|]. exfalso.
      each_declaration Hz; revert Hr; by apply (bool_decide_unpack (¬ _)).
    + by apply (bool_decide_unpack _).
    + by apply (bool_decide_unpack _).
  - apply (sort_service_dicts_self_reference
             [decl "a" ["a"] []; decl "a" [] []; decl "b" [] []]
             (decl "a" ["a"] [])).
    + by apply (bool_decide_unpack _).
    + apply only_cycle_of_explicit. intros x z Hx Hz Hr.
      each_declaration Hx; [done|exfalso..];
        each_declaration Hz; revert Hr; by apply (bool_decide_unpack (¬ _)).
    + by apply (bool_decide_unpack _).
Defined.

(** Without the condition on the other cycles: a cycle that closes first
    is the one reported. *)
Lemma sort_service_dicts_self_link_counterexample :
  ¬ (∀ services s,
       unique_names services →
       s ∈ services → sd_name s ∈ get_service_names (get_links s) →
       sort_service_dicts services = Raise (SelfLink (sd_name s))).
Proof.
  intros H.
  specialize (H [decl "a" ["a"] []; decl "y" ["z"] []; decl "z" ["y"] []]
                (decl "a" ["a"] [])
                ltac:(by apply (bool_decide_unpack _))).
  assert (sort_service_dicts
            [decl "a" ["a"] []; decl "y" ["z"] []; decl "z" ["y"] []]
          = Raise (CircularImport {["y"; "z"]})) as Hrun
    by (vm_compute; reflexivity).
  rewrite Hrun in H. discriminate H.
  - by apply (bool_decide_unpack _).
  - by apply (bool_decide_unpack _).
Qed.

(** *** A cycle of three declarations *)

Lemma links_only_to_references x y z :
  links_only_to x y → references x z ↔ sd_name z = sd_name y.
Proof. intros [Hl Hv]. unfold references. rewrite Hl, Hv. set_solver. Qed.

Section three_cycle.
Variables (services : list ServiceDict) (A B C : ServiceDict).
Hypothesis Hservices : services ≡ₚ [A; B; C].
Hypothesis Hnames : NoDup [sd_name A; sd_name B; sd_name C].
Hypothesis HAB : links_only_to A B.
Hypothesis HBC : links_only_to B C.
Hypothesis HCA : links_only_to C A.

Lemma three_cycle_chain q :
  chain services (A :: q) → sd_name A ∈ marks q →
  {[sd_name A; sd_name B; sd_name C]} ⊆ marks q.
Proof using Hservices Hnames HAB HBC HCA.
  assert (sd_name A ≠ sd_name B ∧ sd_name A ≠ sd_name C ∧
          sd_name B ≠ sd_name C) as (Hab & Hac & Hbc).
  { apply NoDup_cons in Hnames as [Ha [Hb _]%NoDup_cons]. set_solver. }
  assert (∀ x, x ∈ services → x = A ∨ x = B ∨ x = C) as Hin.
  { intros x. rewrite Hservices. set_solver. }
  unfold marks. intros Hch HA.
  destruct q as [|x1 q]; [set_solver|].
  destruct Hch as (_ & Hr1 & Hch).
  apply (links_only_to_references _ _ _ HAB) in Hr1.
  assert (x1 = B) as ->.
  { destruct (Hin x1) as [->|[->| ->]]; [by destruct Hch|done..]. }
  destruct q as [|x2 q]; [set_solver|].
  destruct Hch as (_ & Hr2 & Hch).
  apply (links_only_to_references _ _ _ HBC) in Hr2.
  assert (x2 = C) as ->.
  { destruct (Hin x2) as [->|[->| ->]]; [by destruct Hch|done..]. }
  destruct q as [|x3 q]; [set_solver|].
  destruct Hch as (_ & Hr3 & Hch).
  apply (links_only_to_references _ _ _ HCA) in Hr3.
  set_solver.
Qed.

End three_cycle.

Lemma three_cycle_marks services A B C m q :
  services ≡ₚ [A; B; C] → NoDup [sd_name A; sd_name B; sd_name C] →
  links_only_to A B → links_only_to B C → links_only_to C A →
  chain services (m :: q) → sd_name m ∈ marks q →
  marks q = {[sd_name A; sd_name B; sd_name C]}.
Proof.
  intros Hs Hn HAB HBC HCA Hch Hm.
  assert (marks q ⊆ {[sd_name A; sd_name B; sd_name C]}) as Hsub.
  { intros n (x & -> & Hx)%elem_of_list_to_set%list_elem_of_fmap.
    assert (x ∈ services) as Hin.
    { eapply chain_elem_of; [done|by right]. }
    rewrite Hs in Hin. set_solver. }
  assert (m ∈ services) as Hin by by destruct Hch.
  rewrite Hs in Hin.
  cut ({[sd_name A; sd_name B; sd_name C]} ⊆ marks q); [set_solver|].
  each_declaration Hin.
  - by eapply three_cycle_chain.
  - etrans; [|eapply (three_cycle_chain services B C A)];
      [set_solver| | |done..].
    + by rewrite Hs, (Permutation_app_comm [A] [B; C]).
    + by rewrite <- (Permutation_app_comm [sd_name A] [sd_name B; sd_name C]).
  - etrans; [|eapply (three_cycle_chain services C A B)];
      [set_solver| | |done..].
    + by rewrite Hs, (Permutation_app_comm [A; B] [C]).
    + by rewrite <- (Permutation_app_comm [sd_name A; sd_name B] [sd_name C]).
Qed.



(** *** The order of unrelated declarations *)

Lemma name_le_trans : Transitive name_le.
Proof. intros x y z. unfold name_le. apply transitivity. Qed.

Lemma insert_by_name_sorted n l :
  Sorted name_le l → Sorted name_le (insert_by_name n l).
Proof.
  induction 1 as [|m l Hl IH Hm]; simpl; [by repeat constructor|].
  case_decide as Hnm; [by repeat constructor|].
  assert (name_le m n) as Hmn.
  { destruct (total String.le (sd_name n) (sd_name m)); done. }
  constructor; [done|].
  destruct l as [|m' l]; simpl in *; [by constructor|].
  case_decide; constructor; [done|]. by inversion Hm.
Qed.

Lemma sorted_by_name_sorted services : Sorted name_le (sorted_by_name services).
Proof.
  induction services; simpl; [constructor|by apply insert_by_name_sorted].
Qed.

Lemma sorted_by_name_unique services services' :
  unique_names services → services' ≡ₚ services →
  sorted_by_name services' = sorted_by_name services.
Proof.
  intros Hu Hperm. apply (@Sorted_unique_strong _ name_le name_le_trans).
  - intros x y Hx Hy Hxy Hyx.
    rewrite sorted_by_name_perm in Hx, Hy. rewrite Hperm in Hx.
    apply (unique_names_inj services); [done..|].
    by apply (anti_symm String.le).
  - apply sorted_by_name_sorted.
  - apply sorted_by_name_sorted.
  - by rewrite !sorted_by_name_perm.
Qed.

Lemma remove_first_last x l : x ∉ l → remove_first x (l ++ [x]) = l.
Proof.
  induction l as [|y l IH]; intros Hx; simpl.
  - by rewrite decide_True.
  - rewrite decide_False by set_solver. f_equal. apply IH. set_solver.
Qed.

Lemma unrelated_dependents services n :
  unrelated services → n ∈ services → dependents services n = [].
Proof.
  intros Hun Hn. destruct (dependents services n) as [|m ms] eqn:Hd; [done|].
  assert (m ∈ dependents services n) as [Hr Hm]%elem_of_dependents
    by (rewrite Hd; left).
  by destruct (Hun m n).
Qed.

Lemma visit_unmarked_unrelated services rounds l sorted :
  unrelated services → NoDup l → l ⊆ services → length l ≤ rounds →
  visit_unmarked services rounds
    {| unmarked := l; temporary_marked := ∅; sorted_services := sorted |}
  = Done (l ++ sorted).
Proof.
  intros Hun. revert l sorted.
  induction rounds as [|rounds IH]; intros l sorted Hnd Hsub Hlen.
  { by destruct l; [|simpl in Hlen; lia]. }
  destruct l as [|n l _] using rev_ind; [done|].
  cbn [visit_unmarked unmarked]. rewrite last_snoc.
  apply NoDup_app in Hnd as (Hl & Hn & _).
  assert (n ∉ l) as Hnl by set_solver.
  cbn [visit]. cbn [temporary_marked unmarked].
  rewrite decide_False by set_solver. rewrite decide_True by set_solver.
  rewrite unrelated_dependents by set_solver. cbn [visit_each].
  unfold settle, mark. cbn [temporary_marked unmarked sorted_services].
  rewrite remove_first_last by done.
  replace ((∅ ∪ {[sd_name n]}) ∖ {[sd_name n]}) with (∅ : gset string)
    by set_solver.
  rewrite IH; [by rewrite <- (assoc (++))|done|set_solver|].
  rewrite length_app in Hlen. simpl in Hlen. lia.
Qed.




(** ** Strings *)

Lemma append_nil_l (t : string) : EmptyString +:+ t = t.
Proof. reflexivity. Qed.

Lemma append_cons_l c (s t : string) : String c s +:+ t = String c (s +:+ t).
Proof. reflexivity. Qed.

Lemma append_eq_self (s t : string) : s +:+ t = s → t = EmptyString.
Proof.
  induction s as [|c s IH]; [done|]. rewrite append_cons_l. intros [= ?]. auto.
Qed.

Lemma rsplit1_None sep s : rsplit1 sep s = None ↔ contains sep s = false.
Proof.
  induction s as [|c s IH]; simpl; [done|].
  destruct (rsplit1 sep s) as [[before after]|].
  - split; [done|]. case_decide; [done|]. intros Hs. by apply IH in Hs.
  - case_decide; [done|]. split; [intros _; by apply IH|done].
Qed.

Lemma rsplit1_append sep before after :
  contains sep after = false →
  rsplit1 sep (before +:+ String sep after) = Some (before, after).
Proof.
  intros Hafter. induction before as [|c before IH].
  - rewrite append_nil_l. simpl.
    apply rsplit1_None in Hafter as ->. by rewrite decide_True.
  - rewrite append_cons_l. simpl. by rewrite IH.
Qed.

Lemma rsplit1_inv sep s before after :
  rsplit1 sep s = Some (before, after) →
  s = before +:+ String sep after ∧ contains sep after = false.
Proof.
  revert before. induction s as [|c s IH]; intros before; simpl; [done|].
  destruct (rsplit1 sep s) as [[before' after']|] eqn:Hs.
  - intros [= <- <-]. destruct (IH _ eq_refl) as [-> ?]. done.
  - case_decide as Hc; [|done]. intros [= <- <-]. subst c.
    split; [done|]. by apply rsplit1_None.
Qed.

(** [rsplit1] cuts at the last occurrence of the separator. *)
Lemma rsplit1_Some sep s before after :
  rsplit1 sep s = Some (before, after) ↔
  s = before +:+ String sep after ∧ contains sep after = false.
Proof.
  split; [apply rsplit1_inv|]. intros [-> ?]. by apply rsplit1_append.
Qed.

(** ** get_service *)

(** The loop over [self.services] returns the first service of that name. *)
Lemma find_service_Some service_name' services service :
  find_service service_name' services = Some service ↔
  ∃ before after, services = before ++ service :: after ∧
                  service_name service = service_name' ∧
                  Forall (λ s, service_name s ≠ service_name') before.
Proof.
  induction services as [|s l IH]; simpl.
  { split; [done|]. intros ([|??] & ? & ? & _); done. }
  case_decide as Hs.
  - split.
    + intros [= <-]. by exists [], l.
    + intros ([|s' before] & after & Heq & Hn & Hb); simplify_eq/=; [done|].
      by apply Forall_cons in Hb as [? _].
  - rewrite IH. split.
    + intros (before & after & -> & Hn & Hb). exists (s :: before), after.
      split; [done|]. split; [done|]. by constructor.
    + intros ([|s' before] & after & Heq & Hn & Hb); simplify_eq/=.
      apply Forall_cons in Hb as [_ Hb]. eauto.
Qed.

Lemma find_service_None service_name' services :
  find_service service_name' services = None ↔
  Forall (λ s, service_name s ≠ service_name') services.
Proof.
  induction services as [|s l IH]; simpl; [done|].
  case_decide.
  - split; [done|]. by intros [? _]%Forall_cons.
  - rewrite IH, Forall_cons. naive_solver.
Qed.

Lemma get_service_split self candidate short :
  contains "_" short = false →
  get_service self (candidate +:+ String "_" short) =
    if decide ((if decide (candidate = namespace self) then candidate
                else namespace self +:+ candidate) = name self)
    then lookup_service self (candidate +:+ String "_" short) short
    else Err (NoSuchService (candidate +:+ String "_" short)).
Proof.
  intros Hshort. unfold get_service, lookup_service.
  rewrite rsplit1_append by done.
  destruct (decide (candidate = namespace self)) as [->|Hne].
  - rewrite decide_False by (by intros []). done.
  - rewrite decide_True by done. done.
Qed.

Lemma get_service_plain self key :
  contains "_" key = false → get_service self key = lookup_service self key key.
Proof.
  intros Hkey%rsplit1_None. unfold get_service, lookup_service.
  rewrite Hkey. by rewrite decide_True.
Qed.

Lemma get_service_Err self key e :
  get_service self key = Err e → e = NoSuchService key.
Proof.
  unfold get_service. destruct (rsplit1 _ _) as [[??]|];
    repeat case_decide; repeat case_match; naive_solver.
Qed.

(** C3, as the source has it: a key with a separator is cut at its last
    ['_'] into a candidate and a short name; a candidate other than the
    namespace of the registry gets the namespace in front; the short name
    is looked up when the outcome equals the name of the registry (its
    name, not its namespace), and [NoSuchService] is raised with the key
    otherwise; a key without a separator is looked up under the name of
    the registry; the lookup answers the first service of that name. On a
    registry named ['test'], ['test_web'] and ['web'] find the same
    service. *)
Theorem get_service_resolution :
  (∀ self candidate short,
     contains "_" short = false →
     get_service self (candidate +:+ String "_" short) =
       if decide ((if decide (candidate = namespace self) then candidate
                   else namespace self +:+ candidate) = name self)
       then lookup_service self (candidate +:+ String "_" short) short
       else Err (NoSuchService (candidate +:+ String "_" short))) ∧
  (∀ self key,
     contains "_" key = false →
     get_service self key = lookup_service self key key) ∧
  (∀ self key short service,
     lookup_service self key short = Ok service ↔
     ∃ before after, services self = before ++ service :: after ∧
                     service_name service = short ∧
                     Forall (λ s, service_name s ≠ short) before) ∧
  (∀ services service,
     find_service "web" services = Some service →
     get_service (new_project "test" services None) "test_web" = Ok service ∧
     get_service (new_project "test" services None) "web" = Ok service).
Proof.
  split; [apply get_service_split|]. split; [apply get_service_plain|]. split.
  - intros self key short service. rewrite <- find_service_Some.
    unfold lookup_service. destruct (find_service _ _); naive_solver.
  - intros services service Hfind. split.
    + rewrite (get_service_split _ "test" "web") by done.
      simpl. unfold lookup_service. simpl. by rewrite Hfind.
    + rewrite get_service_plain by done. unfold lookup_service. simpl.
      by rewrite Hfind.
Qed.

Lemma get_service_resolution_witness :
  get_service (new_project "test" [web] None) "test_web" = Ok web ∧
  get_service (new_project "test" [web] None) "web" = Ok web.
Proof.
  apply (proj2 (proj2 (proj2 get_service_resolution))). reflexivity.
Defined.

(** The outcome is compared with the name of the registry: a key in the
    namespace of a registry with another name is not found. *)
Lemma get_service_namespace_counterexample :
  ¬ (∀ self candidate short service,
       contains "_" short = false →
       (if decide (candidate = namespace self) then candidate
        else namespace self +:+ candidate) = namespace self →
       find_service short (services self) = Some service →
       get_service self (candidate +:+ String "_" short) = Ok service).
Proof.
  intros H.
  specialize (H (new_project "figtest" [web] (Some "top")) "top" "web" web
                eq_refl eq_refl eq_refl).
  vm_compute in H. discriminate H.
Qed.

(** C9, as the source has it: on a registry whose namespace is its name,
    a key whose part before the last ['_'] is not empty and is not the
    name of the registry raises [NoSuchService], also when the key is the
    name of a registered service. *)
Theorem get_service_underscore_name self candidate short :
  namespace self = name self →
  contains "_" short = false →
  candidate ≠ name self → candidate ≠ EmptyString →
  get_service self (candidate +:+ String "_" short)
  = Err (NoSuchService (candidate +:+ String "_" short)).
Proof.
  intros Hns Hshort Hne Hnil. rewrite get_service_split by done.
  rewrite Hns. rewrite (decide_False (P := candidate = name self)) by done.
  rewrite decide_False; [done|]. by intros ?%append_eq_self.
Qed.

Lemma get_service_underscore_name_witness :
  get_service (new_project "test" [mkService 5 "my_db" []; web] None) "my_db"
  = Err (NoSuchService "my_db").
Proof.
  apply (get_service_underscore_name
           (new_project "test" [mkService 5 "my_db" []; web] None) "my" "db");
    done.
Defined.

(** With nothing before the ['_'], the key is looked up without it. *)
Lemma get_service_underscore_name_counterexample :
  ¬ (∀ self service candidate short,
       namespace self = name self →
       service ∈ services self →
       service_name service = candidate +:+ String "_" short →
       contains "_" short = false →
       candidate ≠ name self →
       get_service self (service_name service)
       = Err (NoSuchService (service_name service))).
Proof.
  intros H.
  specialize (H (new_project "test" [web; mkService 5 "_web" []] None)
                (mkService 5 "_web" []) "" "web" eq_refl).
  discriminate H; [|done..]. set_solver.
Qed.

(** ** get_services *)

Lemma elem_of_keep_first l x : x ∈ keep_first l ↔ x ∈ l.
Proof.
  induction l as [|y l IH]; simpl; [done|].
  rewrite !elem_of_cons, list_elem_of_filter, IH.
  destruct (decide (x = y)); naive_solver.
Qed.

Lemma NoDup_keep_first l : NoDup (keep_first l).
Proof.
  induction l as [|y l IH]; simpl; constructor.
  - rewrite list_elem_of_filter. naive_solver.
  - by apply NoDup_filter.
Qed.

Lemma keep_first_sublist l : keep_first l `sublist_of` l.
Proof.
  induction l as [|y l IH]; simpl; [done|].
  apply sublist_skip. etrans; [apply sublist_filter|done].
Qed.

Lemma keep_first_app l1 l2 :
  keep_first (l1 ++ l2) = keep_first l1 ++ filter (λ y, y ∉ l1) (keep_first l2).
Proof.
  induction l1 as [|x l1 IH]; simpl.
  - symmetry. induction (keep_first l2) as [|y k IHk]; [done|].
    rewrite filter_cons_True by set_solver. by f_equal.
  - f_equal. rewrite IH, filter_app. f_equal.
    rewrite list_filter_filter. apply list_filter_iff. set_solver.
Qed.

Lemma foldl_uniques acc l :
  foldl (λ uniques s, if decide (s ∈ uniques) then uniques else uniques ++ [s])
        acc l
  = acc ++ filter (λ y, y ∉ acc) (keep_first l).
Proof.
  revert acc. induction l as [|x l IH]; intros acc; simpl.
  { by rewrite filter_nil, app_nil_r. }
  rewrite IH. case_decide as Hx.
  - rewrite filter_cons_False by naive_solver. f_equal.
    rewrite list_filter_filter. apply list_filter_iff. set_solver.
  - rewrite filter_cons_True by done. rewrite <- (assoc (++)). simpl.
    do 2 f_equal.
    rewrite list_filter_filter. apply list_filter_iff. set_solver.
Qed.

Lemma uniques_of_keep_first l : uniques_of l = keep_first l.
Proof.
  unfold uniques_of. rewrite foldl_uniques. simpl.
  induction (keep_first l) as [|y k IHk]; [done|].
  rewrite filter_cons_True by set_solver. by f_equal.
Qed.

(** A service whose every occurrence comes after one of [t] comes after
    [t] once the later occurrences are dropped. *)
Lemma keep_first_precedes l t s :
  s ∈ l → (∀ l1 l2, l = l1 ++ s :: l2 → t ∈ l1) → precedes (keep_first l) t s.
Proof.
  intros (l1 & l2 & -> & Hs)%list_elem_of_split_l Hall.
  specialize (Hall _ _ eq_refl).
  rewrite keep_first_app. simpl. rewrite filter_cons_True by done.
  apply (proj2 (elem_of_keep_first _ _)), list_elem_of_lookup in Hall as [i Hi].
  exists i, (length (keep_first l1)). split; [by apply lookup_app_l_Some|].
  split; [by rewrite list_lookup_middle|]. by apply lookup_lt_Some in Hi.
Qed.

Lemma Service_links_ind (P : Service → Prop) :
  (∀ id name links,
     Forall (λ link, P link.1) links → P (mkService id name links)) →
  ∀ service, P service.
Proof.
  intros H. fix IH 1. intros [id name links]. apply H.
  induction links as [|link links IHl]; constructor; [apply IH|apply IHl].
Qed.

Lemma flat_map_fmap {A B C} (f : B → list C) (g : A → B) (l : list A) :
  flat_map f (g <$> l) = flat_map (f ∘ g) l.
Proof. unfold flat_map. by rewrite <- list_fmap_compose. Qed.

(** [_add_linked_services] in the words of the source. *)
Lemma _add_linked_services_unfold service :
  _add_linked_services service =
    match get_linked_services service with
    | [] => [service]
    | linked_services =>
        flat_map _add_linked_services linked_services ++ [service]
    end.
Proof.
  destruct service as [id name [|link links]]; [done|].
  unfold get_linked_services. cbn [service_links].
  rewrite fmap_cons, <- (fmap_cons fst), flat_map_fmap. reflexivity.
Qed.

Lemma _add_linked_services_closure service :
  _add_linked_services service =
    flat_map _add_linked_services (get_linked_services service) ++ [service].
Proof.
  rewrite _add_linked_services_unfold.
  by destruct (get_linked_services service).
Qed.

Lemma elem_of_flat_map {A B} (f : A → list B) l y :
  y ∈ flat_map f l ↔ ∃ x, x ∈ l ∧ y ∈ f x.
Proof.
  unfold flat_map. rewrite list_elem_of_join. split.
  - intros (k & Hy & (x & -> & Hx)%list_elem_of_fmap). eauto.
  - intros (x & Hx & Hy). exists (f x). split; [done|].
    by apply list_elem_of_fmap_2.
Qed.

Lemma flat_map_cons {A B} (f : A → list B) x l :
  flat_map f (x :: l) = f x ++ flat_map f l.
Proof. done. Qed.

Lemma links_first_app l k :
  links_first l → links_first k → links_first (l ++ k).
Proof.
  intros Hl Hk l1 s l2 Heq t Ht.
  apply app_eq_inv in Heq as [(k' & -> & Heq)|(k' & -> & Heq)].
  - destruct k' as [|s' k']; simplify_eq/=.
    + by apply (Hk [] s l2 eq_refl t), elem_of_nil in Ht.
    + by eapply Hl.
  - apply elem_of_app. right. eauto.
Qed.

Lemma _add_linked_services_last service :
  service ∈ _add_linked_services service.
Proof. rewrite _add_linked_services_closure. set_solver. Qed.

Lemma links_first_flat_map l :
  Forall (λ s, links_first (_add_linked_services s)) l →
  links_first (flat_map _add_linked_services l).
Proof.
  induction 1 as [|s l Hs _ IH]; [by intros [|??] ???|].
  rewrite flat_map_cons. by apply links_first_app.
Qed.

Lemma links_first_closure service : links_first (_add_linked_services service).
Proof.
  induction service as [id name links IH] using Service_links_ind.
  rewrite _add_linked_services_closure.
  intros l1 s l2 Heq t Ht.
  set (self := mkService id name links) in *.
  assert (links_first
            (flat_map _add_linked_services (get_linked_services self)))
    as Hrec.
  { apply links_first_flat_map. unfold get_linked_services. simpl.
    by apply Forall_fmap. }
  destruct l2 as [|s' l2 _] using rev_ind.
  - apply (app_inj_tail _ l1) in Heq as [<- <-].
    apply elem_of_flat_map. exists t. split; [done|].
    apply _add_linked_services_last.
  - rewrite app_comm_cons, (assoc (++)) in Heq.
    apply app_inj_tail in Heq as [Heq _]. by eapply Hrec.
Qed.

Lemma for_each_Ok {A B} (f : A → result B) l ys :
  for_each f l = Ok ys ↔ Forall2 (λ x y, f x = Ok y) l ys.
Proof.
  revert ys. induction l as [|x l IH]; intros ys; simpl.
  { split; [intros [= <-]; constructor|by inversion 1]. }
  destruct (f x) as [y|e] eqn:Hx; simpl.
  - destruct (for_each f l) as [ys'|e] eqn:Hl; simpl.
    + split.
      * intros [= <-]. constructor; [done|]. by apply IH.
      * inversion 1 as [|???? Hy Hys]; subst. apply IH in Hys. congruence.
    + split; [done|]. inversion 1 as [|???? Hy Hys]; subst.
      by apply IH in Hys.
  - split; [done|]. inversion 1; congruence.
Qed.

Lemma result_bind_Ok {A B} (a : A) (k : A → result B) : Ok a ≫= k = k a.
Proof. done. Qed.

(** C2: with [include_links], [get_services] resolves the requested names
    in their order, replaces each service by the closure
    [_add_linked_services], which lists the closures of its linked
    services, depth first, before the service itself, and keeps the first
    occurrence of each service of the concatenation; the result has no
    duplicate and every service in it comes after the services it links
    to. With [web] linking [db] and [console] linking [web], asking for
    ['console'] gives [db; web; console], and asking for ['web'; 'db']
    gives [db; web]. *)
Theorem get_services_include_links :
  (∀ service,
     _add_linked_services service =
       flat_map _add_linked_services (get_linked_services service)
       ++ [service]) ∧
  (∀ self service_name' service_names,
     get_services self (Some (service_name' :: service_names)) true =
       requested ← for_each (get_service self) (service_name' :: service_names);
       Ok (keep_first (flat_map _add_linked_services requested))) ∧
  (∀ self service_name' service_names out,
     get_services self (Some (service_name' :: service_names)) true = Ok out →
     NoDup out ∧
     ∀ s t, s ∈ out → t ∈ get_linked_services s → precedes out t s) ∧
  get_services (new_project "test" [web; db; cache; console] None)
    (Some ["console"]) true = Ok [db; web; console] ∧
  get_services (new_project "test" [web; db] None)
    (Some ["web"; "db"]) true = Ok [db; web].
Proof.
  assert (∀ self service_name' service_names,
     get_services self (Some (service_name' :: service_names)) true =
       requested ← for_each (get_service self) (service_name' :: service_names);
       Ok (keep_first (flat_map _add_linked_services requested))) as Hrun.
  { intros self n ns. unfold get_services.
    destruct (for_each _ _) as [requested|e]; [|done].
    by rewrite !result_bind_Ok, uniques_of_keep_first. }
  split; [apply _add_linked_services_closure|]. split; [done|].
  split; [|by split].
  intros self n ns out. rewrite Hrun.
  destruct (for_each _ _) as [requested|e]; [|done].
  rewrite result_bind_Ok. intros [= <-].
  split; [apply NoDup_keep_first|]. intros s t Hs Ht.
  rewrite elem_of_keep_first in Hs. apply keep_first_precedes; [done|].
  intros l1 l2 Heq. eapply links_first_flat_map; [|done..].
  apply Forall_forall. intros ? _. apply links_first_closure.
Qed.

Lemma get_services_include_links_witness :
  let out := [db; web; console] in
  NoDup out ∧ ∀ s t, s ∈ out → t ∈ get_linked_services s → precedes out t s.
Proof.
  apply (proj1 (proj2 (proj2 get_services_include_links))
           (new_project "test" [web; db; cache; console] None) "console" []).
  reflexivity.
Defined.

(** C10: without [include_links], [get_services] on a list of names
    resolves the names in their order and keeps the first occurrence of
    each service: the result has no duplicate, holds the services that
    were resolved and no other, in the order of the request. Asking for
    ['web'; 'web'] gives [web]. *)
Theorem get_services_removes_duplicates :
  (∀ self service_name' service_names,
     get_services self (Some (service_name' :: service_names)) false =
       requested ← for_each (get_service self) (service_name' :: service_names);
       Ok (keep_first requested)) ∧
  (∀ requested,
     NoDup (keep_first requested) ∧
     (∀ s, s ∈ keep_first requested ↔ s ∈ requested) ∧
     keep_first requested `sublist_of` requested ∧
     (∀ s t l1 l2, requested = l1 ++ s :: l2 → t ∈ l1 → s ∉ l1 →
                   precedes (keep_first requested) t s)) ∧
  get_services (new_project "test" [web; console] None)
    (Some ["web"; "web"]) false = Ok [web].
Proof.
  split; [|split; [|done]].
  - intros self n ns. unfold get_services.
    destruct (for_each _ _) as [requested|e]; [|done].
    by rewrite !result_bind_Ok, uniques_of_keep_first.
  - intros requested. split; [apply NoDup_keep_first|].
    split; [intros s; apply elem_of_keep_first|].
    split; [apply keep_first_sublist|].
    intros s t l1 l2 -> Ht Hs. rewrite keep_first_app. simpl.
    rewrite filter_cons_True by done.
    apply (proj2 (elem_of_keep_first _ _)), list_elem_of_lookup in Ht as [i Hi].
    exists i, (length (keep_first l1)). split; [by apply lookup_app_l_Some|].
    split; [by rewrite list_lookup_middle|]. by apply lookup_lt_Some in Hi.
Qed.

Lemma get_services_removes_duplicates_witness :
  precedes (keep_first [db; web; db; web]) db web.
Proof.
  apply (proj2 (proj2 (proj2 (proj1 (proj2 get_services_removes_duplicates)
                                [db; web; db; web])))
           web db [db] [db; web] eq_refl).
  - by apply (bool_decide_unpack _).
  - by apply (bool_decide_unpack _).
Defined.

(** ** get_volumes_from *)

Section volumes_from.
Context {Container : Type} (from_id : string → option Container).
Variable self : Project.

Lemma get_volumes_from_loop_Ok
    owner volume_names volumes_from asked asked' out :
  get_volumes_from_loop from_id self owner volume_names volumes_from asked
    = (asked', Ok out) ↔
  ∃ sources, Forall2 (resolves from_id self) volume_names sources ∧
             out = volumes_from ++ sources ∧
             asked' = asked ++ filter (missed self) volume_names.
Proof.
  revert volumes_from asked. induction volume_names as [|v l IH];
    intros acc asked; simpl.
  { split.
    - intros [= <- <-]. exists []. by rewrite ?filter_nil, ?app_nil_r.
    - intros (sources & ->%Forall2_nil_inv_l & -> & ->).
      by rewrite ?filter_nil, ?app_nil_r. }
  destruct (get_service self v) as [service|e] eqn:Hv.
  - rewrite filter_cons_False by (unfold missed; congruence).
    rewrite IH. split.
    + intros (sources & Hall & -> & ->).
      exists (FromService service :: sources).
      split; [|by rewrite <- (assoc (++))].
      constructor; [by constructor|done].
    + intros (sources & Hall & -> & ->).
      inversion Hall as [|? src ? sources' Hsrc Hall']; subst.
      exists sources'. split; [done|]. rewrite <- (assoc (++)). simpl.
      split; [|done]. inversion Hsrc; congruence.
  - apply get_service_Err in Hv as Hev. subst e.
    rewrite filter_cons_True by done.
    destruct (from_id v) as [container|] eqn:Hc.
    + rewrite IH. split.
      * intros (sources & Hall & -> & ->).
        exists (FromContainer container :: sources).
        split; [|by rewrite <- !(assoc (++))].
        constructor; [by constructor|done].
      * intros (sources & Hall & -> & ->).
        inversion Hall as [|? src ? sources' Hsrc Hall']; subst.
        exists sources'. split; [done|]. rewrite <- !(assoc (++)). simpl.
        split; [|done]. inversion Hsrc; congruence.
    + split; [done|]. intros (sources & Hall & _).
      inversion Hall as [|? src ? sources' Hsrc Hall']; subst.
      inversion Hsrc; congruence.
Qed.

Lemma get_volumes_from_loop_Err owner volume_names volumes_from asked asked' e :
  get_volumes_from_loop from_id self owner volume_names volumes_from asked
    = (asked', Err e) ↔
  ∃ before volume_name after sources,
    volume_names = before ++ volume_name :: after ∧
    Forall2 (resolves from_id self) before sources ∧
    unresolved from_id self volume_name ∧
    e = ConfigurationError owner volume_name ∧
    asked' = asked ++ filter (missed self) before ++ [volume_name].
Proof.
  revert volumes_from asked. induction volume_names as [|v l IH];
    intros acc asked; simpl.
  { split; [done|]. by intros ([|??] & ? & ? & ? & ? & _). }
  destruct (get_service self v) as [service|e'] eqn:Hv.
  - rewrite IH. split.
    + intros (before & w & after & sources & -> & Hall & Hw & -> & ->).
      exists (v :: before), w, after, (FromService service :: sources).
      split; [done|]. split; [constructor; [by constructor|done]|].
      split; [done|]. split; [done|].
      by rewrite filter_cons_False by (unfold missed; congruence).
    + intros ([|v' before] & w & after & sources & Heq & Hall & Hw & -> & ->);
        simplify_eq/=.
      * destruct Hw as [Hw1 Hw2]. congruence.
      * inversion Hall; subst.
        rewrite filter_cons_False by (unfold missed; congruence). eauto 10.
  - apply get_service_Err in Hv as Hev. subst e'.
    destruct (from_id v) as [container|] eqn:Hc.
    + rewrite IH. split.
      * intros (before & w & after & sources & -> & Hall & Hw & -> & ->).
        exists (v :: before), w, after, (FromContainer container :: sources).
        split; [done|]. split; [constructor; [by constructor|done]|].
        split; [done|]. split; [done|].
        rewrite filter_cons_True by done. by rewrite <- !(assoc (++)).
      * intros ([|v' before] & w & after & sources & Heq & Hall & Hw & -> & ->);
          simplify_eq/=.
        -- destruct Hw as [Hw1 Hw2]. congruence.
        -- inversion Hall; subst. rewrite filter_cons_True by done.
           exists before, w, after. eexists. split; [done|]. split; [done|].
           split; [done|]. split; [done|]. by rewrite <- !(assoc (++)).
    + split.
      * intros [= <- <-]. exists [], v, l, []. by rewrite ?filter_nil.
      * intros ([|v' before] & w & after & sources & Heq & Hall & Hw & -> & ->);
          simplify_eq/=; [by rewrite ?filter_nil|].
        inversion Hall as [|? src ? ? Hsrc]; subst. inversion Hsrc; congruence.
Qed.

(** C6: [get_volumes_from] resolves the volumes_from entries of a
    declaration in their order. An entry is the registry service of that
    name when there is one, whatever the client knows under that id; the
    client is asked only for the entries on which the registry raises
    [NoSuchService], and its container is taken then; the first entry
    that the client does not find either ends the call with the
    configuration error that names the declaration and the entry. *)
Theorem get_volumes_from_precedence service_dict :
  (∀ asked sources,
     get_volumes_from from_id self service_dict = (asked, Ok sources) ↔
     Forall2 (resolves from_id self) (get_volumes service_dict) sources ∧
     asked = filter (missed self) (get_volumes service_dict)) ∧
  (∀ asked e,
     get_volumes_from from_id self service_dict = (asked, Err e) ↔
     ∃ before volume_name after sources,
       get_volumes service_dict = before ++ volume_name :: after ∧
       Forall2 (resolves from_id self) before sources ∧
       unresolved from_id self volume_name ∧
       e = ConfigurationError (sd_name service_dict) volume_name ∧
       asked = filter (missed self) before ++ [volume_name]) ∧
  (∀ volume_name service source,
     get_service self volume_name = Ok service →
     resolves from_id self volume_name source → source = FromService service) ∧
  (∀ volume_name service,
     get_service self volume_name = Ok service → ¬ missed self volume_name).
Proof.
  split; [|split; [|split]].
  - intros asked sources. unfold get_volumes_from.
    rewrite get_volumes_from_loop_Ok. naive_solver.
  - intros asked e. unfold get_volumes_from.
    rewrite get_volumes_from_loop_Err. naive_solver.
  - intros v service source Hv Hsrc. inversion Hsrc; congruence.
  - intros v service Hv. unfold missed. congruence.
Qed.

End volumes_from.

Lemma get_volumes_from_precedence_witness :
  let from_id := λ id : string,
    if decide (id ∈ ["db"; "3f2a"]) then Some ("container " +:+ id) else None in
  let self := new_project "test" [db; web] None in
  get_volumes_from from_id self
    (mkServiceDict "worker" None (Some ["db"; "3f2a"]) ∅)
  = (["3f2a"], Ok [FromService db; FromContainer "container 3f2a"]).
Proof.
  intros from_id self.
  apply (proj1 (get_volumes_from_precedence from_id self
                  (mkServiceDict "worker" None (Some ["db"; "3f2a"]) ∅))).
  split; [repeat constructor|reflexivity].
Defined.

(** ** stop and kill *)

(** [stop] and [kill] call the services of [get_services] from the last
    to the first. *)
Lemma stop_reverse self service_names calls :
  stop self service_names = Ok calls ↔
  ∃ services, get_services self service_names false = Ok services ∧
              calls = CallStop <$> reverse services.
Proof.
  unfold stop. destruct (get_services _ _ _) as [services|e]; [|naive_solver].
  rewrite result_bind_Ok. naive_solver.
Qed.

Lemma kill_reverse self service_names calls :
  kill self service_names = Ok calls ↔
  ∃ services, get_services self service_names false = Ok services ∧
              calls = CallKill <$> reverse services.
Proof.
  unfold kill. destruct (get_services _ _ _) as [services|e]; [|naive_solver].
  rewrite result_bind_Ok. naive_solver.
Qed.

Lemma precedes_reverse {A} (l : list A) x y :
  precedes l x y → precedes (reverse l) y x.
Proof.
  intros (i & j & Hi & Hj & Hlt).
  pose proof (lookup_lt_Some _ _ _ Hi). pose proof (lookup_lt_Some _ _ _ Hj).
  exists (length l - S j), (length l - S i).
  split; [|split; [|lia]].
  - rewrite reverse_lookup by lia. rewrite <- Hj. f_equal. lia.
  - rewrite reverse_lookup by lia. rewrite <- Hi. f_equal. lia.
Qed.

Lemma precedes_fmap {A B} (f : A → B) (l : list A) x y :
  precedes l x y → precedes (f <$> l) (f x) (f y).
Proof.
  intros (i & j & Hi & Hj & Hlt). exists i, j.
  rewrite !list_lookup_fmap, Hi, Hj. done.
Qed.

(** What comes first in the answer of [get_services] is stopped last. *)
Lemma stop_precedes self service_names services calls s t :
  get_services self service_names false = Ok services →
  stop self service_names = Ok calls →
  precedes services t s → precedes calls (CallStop s) (CallStop t).
Proof.
  intros Hs (services' & Hs' & ->)%stop_reverse Hts.
  assert (services' = services) as -> by congruence.
  by apply precedes_fmap, precedes_reverse.
Qed.

(** C8: [stop] and [kill] call the services that [get_services] answers
    for the names, from the last to the first. On [fig stop web db], the
    registry holding [db] before [web], which links to it, [get_services]
    answers [web; db], the order of the request, and [db] is stopped and
    killed before [web], which depends on it. *)
Theorem stop_kill_requested_order :
  (∀ self service_names calls,
     stop self service_names = Ok calls ↔
     ∃ services, get_services self service_names false = Ok services ∧
                 calls = CallStop <$> reverse services) ∧
  (∀ self service_names calls,
     kill self service_names = Ok calls ↔
     ∃ services, get_services self service_names false = Ok services ∧
                 calls = CallKill <$> reverse services) ∧
  let self := new_project "test" [db; web] None in
  db ∈ get_linked_services web ∧
  get_services self (Some ["web"; "db"]) false = Ok [web; db] ∧
  stop self (Some ["web"; "db"]) = Ok [CallStop db; CallStop web] ∧
  kill self (Some ["web"; "db"]) = Ok [CallKill db; CallKill web].
Proof.
  split; [apply stop_reverse|]. split; [apply kill_reverse|].
  intros self. split.
  - by apply (bool_decide_unpack _).
  - by repeat split.
Qed.

(** ** The sort on every input *)

(** A chain that closes on a name in progress is a cycle of references,
    whether the names of the collection are unique or not. *)
Lemma closes_tc services e :
  closes services e → ∃ x, tc (depends_on services) x x.
Proof.
  intros (m & q & Hch & _ & Hm & _). exists m.
  apply elem_of_list_to_set, list_elem_of_fmap in Hm as (m' & Heq & Hm').
  apply list_elem_of_split in Hm' as (q1 & q2 & ->).
  assert (m ∈ services) as Hin by by destruct Hch.
  destruct q1 as [|z q1 _] using rev_ind.
  - apply tc_once. split; [done|]. split; [done|].
    destruct Hch as (_ & Hr & _). by apply (references_name m m').
  - replace ((q1 ++ [z]) ++ m' :: q2) with (q1 ++ z :: m' :: q2) in Hch
      by (by rewrite <- (assoc_L (++))).
    assert (tc (depends_on services) m z) as Hmz by by eapply chain_tc.
    eapply tc_r; [done|].
    assert (chain services (z :: m' :: q2)) as (Hz & Hr & _).
    { clear -Hch. revert m Hch. induction q1 as [|y q1 IH]; intros m Hch.
      - by destruct Hch as (_ & _ & ?).
      - destruct Hch as (_ & _ & Hch). by eapply IH. }
    split; [done|]. split; [done|]. by apply (references_name z m').
Qed.

(** X1: on every input the run of [sort_service_dicts] ends before its
    bounds: [visit] never nests deeper than the number of declarations
    plus one and the loop never takes more rounds than there are
    declarations, so the sort returns a list or raises a
    [DependencyError]. *)
Theorem sort_service_dicts_returns_or_raises services :
  (∃ out, sort_service_dicts services = Done out) ∨
  (∃ e, sort_service_dicts services = Raise e).
Proof.
  pose proof (sort_service_dicts_spec services) as H.
  destruct (sort_service_dicts services) as [out|e|]; [by eauto..|done].
Qed.

(** X2: whatever the input, duplicate names included, a list that
    [sort_service_dicts] returns is a permutation of the input in which
    every occurrence of a declaration is followed by each declaration of
    the collection that references it. *)
Theorem sort_service_dicts_sound services out :
  sort_service_dicts services = Done out →
  out ≡ₚ services ∧
  ∀ l1 x l2, out = l1 ++ x :: l2 →
    ∀ m, m ∈ services → references m x → m ∈ l2.
Proof.
  intros Hrun. pose proof (sort_service_dicts_spec services) as H.
  rewrite Hrun in H. by destruct H as [Hperm Hord].
Qed.

Lemma sort_service_dicts_sound_witness :
  let services :=
    [decl "web" ["db"] []; decl "db" [] []; decl "web" ["db"] []] in
  let out := [decl "db" [] []; decl "web" ["db"] []; decl "web" ["db"] []] in
  out ≡ₚ services ∧
  ∀ l1 x l2, out = l1 ++ x :: l2 →
    ∀ m, m ∈ services → references m x → m ∈ l2.
Proof.
  intros services out.
  apply (sort_service_dicts_sound services out). vm_compute. reflexivity.
Defined.

(** X3: [sort_service_dicts] raises a [DependencyError] exactly when some
    declaration of the collection reaches itself through links and
    volumes_from entries (a self-reference or a longer cycle), whether the
    names are unique or not; otherwise it returns. *)
Theorem sort_service_dicts_raises_iff_cycle services :
  (∃ e, sort_service_dicts services = Raise e) ↔
  (∃ x, tc (depends_on services) x x).
Proof.
  split.
  - intros [e Hrun]. pose proof (sort_service_dicts_spec services) as H.
    rewrite Hrun in H. by eapply closes_tc.
  - intros [x Hx].
    destruct (sort_service_dicts_cycle_raises services x Hx) as (e & He & _).
    eauto.
Qed.

Lemma closing_error_inv m marked e :
  closing_error m marked = e →
  match e with
  | SelfLink n => n = sd_name m ∧ sd_name m ∈ get_service_names (get_links m)
  | SelfVolume n =>
      n = sd_name m ∧ sd_name m ∈ get_volumes m ∧
      sd_name m ∉ get_service_names (get_links m)
  | CircularImport marked' => marked' = marked ∧ ¬ references m m
  end.
Proof.
  unfold closing_error, references. intros <-. repeat case_decide; naive_solver.
Qed.

(** X4: the error that [sort_service_dicts] raises blames what is there: a
    self-link error names a declaration of the collection that has its own
    name among its link targets; a self-volume error names one that has
    its own name among its volumes_from entries and not among its link
    targets; the generic error carries at least two names, all of them
    names of declarations of the collection. *)
Theorem sort_service_dicts_error_names services e :
  sort_service_dicts services = Raise e →
  match e with
  | SelfLink n =>
      ∃ d, d ∈ services ∧ sd_name d = n ∧
           n ∈ get_service_names (get_links d)
  | SelfVolume n =>
      ∃ d, d ∈ services ∧ sd_name d = n ∧ n ∈ get_volumes d ∧
           n ∉ get_service_names (get_links d)
  | CircularImport marked =>
      2 ≤ size marked ∧ marked ⊆ names services
  end.
Proof.
  intros Hrun. pose proof (sort_service_dicts_spec services) as H.
  rewrite Hrun in H. destruct H as (m & q & Hch & Hnd & Hm & He).
  symmetry in He. apply closing_error_inv in He.
  assert (m ∈ services) as Hin by by destruct Hch.
  destruct e as [n|n|marked].
  - destruct He as [-> ?]. eauto.
  - destruct He as (-> & ? & ?). eauto 6.
  - destruct He as [-> Hself]. split.
    + destruct q as [|x q]; [set_solver|].
      destruct Hch as (_ & Hr & _).
      assert (sd_name m ≠ sd_name x) as Hne.
      { intros Heq. apply Hself. by apply (references_name m x). }
      unfold marks in *. rewrite fmap_cons in Hm |- *. simpl in *.
      apply NoDup_cons in Hnd as [Hx _].
      rewrite size_union, size_singleton.
      * assert ({[sd_name m]} ⊆ (list_to_set (sd_name <$> q) : gset string))
          as Hsub%subseteq_size by set_solver.
        rewrite size_singleton in Hsub. lia.
      * apply disjoint_singleton_l. by rewrite elem_of_list_to_set.
    + intros n (x & -> & Hx)%elem_of_list_to_set%list_elem_of_fmap.
      apply elem_of_list_to_set, list_elem_of_fmap_2.
      eapply chain_elem_of; [done|by right].
Qed.

Lemma sort_service_dicts_error_names_witness :
  2 ≤ size ({["y"; "z"]} : gset string) ∧
  ({["y"; "z"]} : gset string)
    ⊆ names [decl "a" ["a"] []; decl "y" ["z"] []; decl "z" ["y"] []].
Proof.
  apply (sort_service_dicts_error_names
           [decl "a" ["a"] []; decl "y" ["z"] []; decl "z" ["y"] []]
           (CircularImport {["y"; "z"]})).
  vm_compute. reflexivity.
Defined.

(** ** The registry on every key *)

Lemma find_service_elem_of service_name' services service :
  find_service service_name' services = Some service →
  service ∈ services ∧ service_name service = service_name'.
Proof.
  intros (before & after & -> & ? & _)%find_service_Some. set_solver.
Qed.

Lemma find_service_unique services service :
  NoDup (service_name <$> services) → service ∈ services →
  find_service (service_name service) services = Some service.
Proof.
  induction services as [|s l IH]; intros Hnd Hin; [by apply elem_of_nil in Hin|].
  rewrite fmap_cons in Hnd. apply NoDup_cons in Hnd as [Hs Hnd]. simpl.
  apply elem_of_cons in Hin as [->|Hin]; [by rewrite decide_True|].
  rewrite decide_False; [by apply IH|].
  intros Heq. apply Hs. rewrite Heq. by apply list_elem_of_fmap_2.
Qed.

Lemma get_service_Ok self key service :
  get_service self key = Ok service →
  service ∈ services self ∧
  contains "_" (service_name service) = false ∧
  (key = service_name service ∨
   ∃ candidate, key = candidate +:+ String "_" (service_name service)).
Proof.
  intros Hget. unfold get_service in Hget.
  destruct (rsplit1 "_" key) as [[candidate short]|] eqn:Hsplit.
  - apply rsplit1_inv in Hsplit as [-> Hshort].
    repeat case_decide; try done;
      destruct (find_service short (services self)) as [s|] eqn:Hfind;
      simplify_eq; apply find_service_elem_of in Hfind as [? <-]; eauto.
  - apply rsplit1_None in Hsplit.
    case_decide; [|done].
    destruct (find_service key (services self)) as [s|] eqn:Hfind;
      simplify_eq. apply find_service_elem_of in Hfind as [? <-]; eauto.
Qed.

(** X5: whatever the key, [get_service] answers a registered service
    whose name has no ['_'] and is the key or what follows the last ['_']
    of the key, or raises [NoSuchService] with the key itself: no key
    finds a service whose name has a ['_']. *)
Theorem get_service_sound self key :
  match get_service self key with
  | Ok service =>
      service ∈ services self ∧
      contains "_" (service_name service) = false ∧
      (key = service_name service ∨
       ∃ candidate, key = candidate +:+ String "_" (service_name service))
  | Err e => e = NoSuchService key
  end.
Proof.
  destruct (get_service self key) as [service|e] eqn:Hget.
  - by apply get_service_Ok.
  - by eapply get_service_Err.
Qed.

Lemma get_service_bare_name self service :
  NoDup (service_name <$> services self) → service ∈ services self →
  contains "_" (service_name service) = false →
  get_service self (service_name service) = Ok service.
Proof.
  intros Hnd Hin Hname. rewrite get_service_plain by done.
  unfold lookup_service. by rewrite find_service_unique.
Qed.

(** X6: a registered service whose name is unique in the registry and has
    no ['_'] is what its bare name finds, whatever the namespace; when the
    namespace is the name of the registry it is also what the name of the
    registry, ['_'] and its name find; and in a registry named by its
    namespace followed by a suffix, it is what the suffix, ['_'] and its
    name find. *)
Theorem get_service_registered self service :
  NoDup (service_name <$> services self) → service ∈ services self →
  contains "_" (service_name service) = false →
  get_service self (service_name service) = Ok service ∧
  (namespace self = name self →
   get_service self (name self +:+ String "_" (service_name service))
   = Ok service) ∧
  (∀ suffix, name self = namespace self +:+ suffix → suffix ≠ namespace self →
   get_service self (suffix +:+ String "_" (service_name service))
   = Ok service).
Proof.
  intros Hnd Hin Hname.
  assert (lookup_service_ok : ∀ key,
    lookup_service self key (service_name service) = Ok service).
  { intros key. unfold lookup_service. by rewrite find_service_unique. }
  split; [|split].
  - by apply get_service_bare_name.
  - intros Hns. rewrite get_service_split by done.
    rewrite Hns. by rewrite (decide_True (P := name self = name self)), decide_True.
  - intros suffix Hsuffix Hne. rewrite get_service_split by done.
    rewrite (decide_False (P := suffix = namespace self)) by done.
    by rewrite decide_True.
Qed.

Lemma get_service_registered_witness :
  get_service (new_project "test" [db; web] None) "web" = Ok web ∧
  get_service (new_project "test" [db; web] None) "test_web" = Ok web ∧
  get_service (new_project "topsub" [db; web] (Some "top")) "sub_web" = Ok web.
Proof.
  destruct (get_service_registered (new_project "test" [db; web] None) web)
    as (Hbare & Hfull & _);
    [by apply (bool_decide_unpack _)|by apply (bool_decide_unpack _)|done|].
  destruct (get_service_registered
              (new_project "topsub" [db; web] (Some "top")) web)
    as (_ & _ & Hsuffix);
    [by apply (bool_decide_unpack _)|by apply (bool_decide_unpack _)|done|].
  split; [exact Hbare|]. split; [by apply Hfull|].
  by apply (Hsuffix "sub").
Defined.

(** ** get_services on every request *)

Lemma for_each_Err {A B} (f : A → result B) l e :
  for_each f l = Err e ↔
  ∃ before x after ys, l = before ++ x :: after ∧
    Forall2 (λ x y, f x = Ok y) before ys ∧ f x = Err e.
Proof.
  induction l as [|x l [IH1 IH2]]; simpl.
  { split; [done|]. by intros ([|??] & ? & ? & ? & ? & _). }
  destruct (f x) as [y|e'] eqn:Hx.
  - rewrite result_bind_Ok. split.
    + intros Hrun. destruct (for_each f l) as [ys|e'']; [done|].
      injection Hrun as ->.
      destruct IH1 as (before & z & after & ys & -> & Hall & Hz); [done|].
      exists (x :: before), z, after, (y :: ys).
      split; [done|]. split; [by constructor|done].
    + intros ([|x' before] & z & after & ys' & Heq & Hall & Hz);
        simplify_eq/=; [congruence|].
      inversion Hall; subst. rewrite IH2; [done|]. eauto 10.
  - split.
    + intros [= ->]. exists [], x, l, [].
      split; [done|]. split; [constructor|done].
    + intros ([|x' before] & z & after & ys' & Heq & Hall & Hz);
        simplify_eq/=; first [congruence|inversion Hall; congruence].
Qed.

(** X7: with or without [include_links], [get_services] on a list of names
    raises exactly when a name does not resolve, and then raises
    [NoSuchService] with the first such name; no service is returned for
    the names before it. *)
Theorem get_services_no_such_service self service_names include_links e :
  get_services self (Some service_names) include_links = Err e ↔
  ∃ before service_name' after requested,
    service_names = before ++ service_name' :: after ∧
    Forall2 (λ n s, get_service self n = Ok s) before requested ∧
    get_service self service_name' = Err (NoSuchService service_name') ∧
    e = NoSuchService service_name'.
Proof.
  destruct service_names as [|n ns].
  { split; [done|]. by intros ([|??] & ? & ? & ? & ? & _). }
  unfold get_services.
  destruct (for_each (get_service self) (n :: ns)) as [requested|e'] eqn:Hall.
  - rewrite result_bind_Ok. split; [done|].
    intros (before & k & after & req & Heq & Hbefore & Hk & ->).
    assert (for_each (get_service self) (n :: ns) = Err (NoSuchService k))
      as Habs; [|congruence].
    apply for_each_Err. eauto 10.
  - change (Err e' ≫= _) with (Err (A:=list Service) e').
    apply for_each_Err in Hall as (before & k & after & req & Heq & Hbefore & Hk).
    apply get_service_Err in Hk as Hek. subst e'. split.
    + intros [= <-]. eauto 10.
    + intros (before' & k' & after' & req' & Heq' & Hbefore' & Hk' & ->).
      f_equal.
      assert (for_each (get_service self) (n :: ns) = Err (NoSuchService k'))
        as Hk2 by (apply for_each_Err; eauto 10).
      assert (for_each (get_service self) (n :: ns) = Err (NoSuchService k))
        as Hk1 by (apply for_each_Err; eauto 10).
      congruence.
Qed.

Lemma filter_all {A} (P : A → Prop) `{∀ x, Decision (P x)} (l : list A) :
  Forall P l → filter P l = l.
Proof.
  induction 1 as [|x l Hx _ IH]; [done|].
  by rewrite filter_cons_True, IH.
Qed.

Lemma uniques_of_NoDup l : NoDup l → uniques_of l = l.
Proof.
  rewrite uniques_of_keep_first.
  induction 1 as [|x l Hx _ IH]; simpl; [done|]. rewrite IH. f_equal.
  apply filter_all, Forall_forall. intros y Hy ->. done.
Qed.

(** X8: when the names of the registry are unique and have no ['_'],
    asking for all of them by name, in the order of the registry, is the
    same as asking for no name. *)
Theorem get_services_all_names self :
  NoDup (service_name <$> services self) →
  Forall (λ s, contains "_" (service_name s) = false) (services self) →
  get_services self (Some (service_name <$> services self)) false
  = get_services self None false.
Proof.
  intros Hnd Hplain.
  assert (for_each (get_service self) (service_name <$> services self)
          = Ok (services self)) as Hall.
  { apply for_each_Ok. apply Forall2_fmap_l, Forall_Forall2_diag.
    rewrite Forall_forall in Hplain |- *. intros s Hs.
    apply get_service_bare_name; [done..|]. by apply Hplain. }
  apply NoDup_fmap_1 in Hnd. unfold get_services.
  destruct (service_name <$> services self) as [|n ns] eqn:Hnames; [done|].
  rewrite Hall, result_bind_Ok. unfold all_services.
  by rewrite uniques_of_NoDup.
Qed.

Lemma get_services_all_names_witness :
  get_services (new_project "test" [db; cache; web] None)
    (Some ["db"; "cache"; "web"]) false
  = Ok [db; cache; web].
Proof.
  apply (get_services_all_names (new_project "test" [db; cache; web] None)).
  - by apply (bool_decide_unpack _).
  - by repeat constructor.
Defined.

Lemma Forall2_elem_of_r {A B} (P : A → B → Prop) l k y :
  Forall2 P l k → y ∈ k → ∃ x, x ∈ l ∧ P x y.
Proof. induction 1; set_solver. Qed.

Lemma Forall2_elem_of_l {A B} (P : A → B → Prop) l k x :
  Forall2 P l k → x ∈ l → ∃ y, y ∈ k ∧ P x y.
Proof. induction 1; set_solver. Qed.

Lemma elem_of_add_linked_services service t :
  t ∈ _add_linked_services service ↔ rtc links_to service t.
Proof.
  revert t. induction service as [id name' links IH] using Service_links_ind.
  intros t. rewrite _add_linked_services_closure.
  set (self := mkService id name' links) in *.
  rewrite elem_of_app, elem_of_flat_map, list_elem_of_singleton. split.
  - intros [(s & Hs & Ht)| ->]; [|done].
    eapply rtc_l; [exact Hs|].
    unfold get_linked_services in Hs. simpl in Hs.
    apply list_elem_of_fmap in Hs as (link & -> & Hlink).
    rewrite Forall_forall in IH. by apply (IH link Hlink).
  - intros Hrtc. apply rtc_inv in Hrtc as [->|(s & Hs & Hst)]; [by right|].
    left. exists s. split; [done|].
    unfold links_to, get_linked_services in Hs. simpl in Hs.
    apply list_elem_of_fmap in Hs as (link & -> & Hlink).
    rewrite Forall_forall in IH. by apply (IH link Hlink).
Qed.

(** X9: with [include_links], the services that [get_services] returns
    are exactly those reached from a requested service by following links
    any number of times; without it, exactly the requested ones, all of
    them registered. *)
Theorem get_services_members self service_name' service_names :
  (∀ out t,
     get_services self (Some (service_name' :: service_names)) true = Ok out →
     t ∈ out ↔
     ∃ n s, n ∈ service_name' :: service_names ∧
            get_service self n = Ok s ∧ rtc links_to s t) ∧
  (∀ out t,
     get_services self (Some (service_name' :: service_names)) false = Ok out →
     t ∈ out ↔
     ∃ n, n ∈ service_name' :: service_names ∧ get_service self n = Ok t) ∧
  (∀ out,
     get_services self (Some (service_name' :: service_names)) false = Ok out →
     out ⊆ services self).
Proof.
  assert (∀ requested,
    for_each (get_service self) (service_name' :: service_names) = Ok requested →
    ∀ s, s ∈ requested ↔
         ∃ n, n ∈ service_name' :: service_names ∧ get_service self n = Ok s)
    as Hreq.
  { intros requested Hall%for_each_Ok s. split.
    - intros Hs. eapply Forall2_elem_of_r in Hs as (n & ? & ?); [|done]. eauto.
    - intros (n & Hn & Hs).
      eapply Forall2_elem_of_l in Hn as (s' & ? & ?); [|done]. congruence. }
  assert (∀ out,
     get_services self (Some (service_name' :: service_names)) false = Ok out →
     ∀ t, t ∈ out ↔
       ∃ n, n ∈ service_name' :: service_names ∧ get_service self n = Ok t)
    as Hplain.
  { intros out Hget t. unfold get_services in Hget.
    destruct (for_each _ _) as [requested|] eqn:Hall; [|done].
    rewrite result_bind_Ok in Hget. injection Hget as <-.
    rewrite uniques_of_keep_first, elem_of_keep_first. by apply Hreq. }
  split; [|split; [intros out t Hget; by apply Hplain|]].
  - intros out t Hget. unfold get_services in Hget.
    destruct (for_each _ _) as [requested|] eqn:Hall; [|done].
    rewrite result_bind_Ok in Hget. injection Hget as <-.
    rewrite uniques_of_keep_first, elem_of_keep_first, elem_of_flat_map.
    split.
    + intros (s & Hs & Ht). apply (Hreq _ eq_refl) in Hs as (n & ? & ?).
      exists n, s. by rewrite <- elem_of_add_linked_services.
    + intros (n & s & Hn & Hs & Ht). exists s.
      split; [apply (Hreq _ eq_refl); eauto
             |by apply elem_of_add_linked_services].
  - intros out Hget t Ht. apply (Hplain _ Hget) in Ht as (n & _ & Hn).
    by apply get_service_Ok in Hn as [? _].
Qed.

Lemma get_services_members_witness :
  db ∈ [db; web; console] ↔
  ∃ n s, n ∈ ["console"] ∧
         get_service (new_project "test" [web; db; cache; console] None) n
         = Ok s ∧ rtc links_to s db.
Proof.
  apply (proj1 (get_services_members
                  (new_project "test" [web; db; cache; console] None)
                  "console" [])).
  reflexivity.
Defined.

(** ** Building a project *)

Lemma split1_None sep s : split1 sep s = None ↔ contains sep s = false.
Proof.
  induction s as [|c s IH]; simpl; [done|].
  case_decide; [done|]. destruct (split1 sep s) as [[??]|]; naive_solver.
Qed.

Lemma split1_append sep before after :
  contains sep before = false →
  split1 sep (before +:+ String sep after) = Some (before, after).
Proof.
  induction before as [|c before IH].
  - intros _. rewrite append_nil_l. simpl. by rewrite decide_True.
  - rewrite append_cons_l. simpl. case_decide; [done|]. intros Hb.
    by rewrite IH.
Qed.

Lemma split1_inv sep s before after :
  split1 sep s = Some (before, after) →
  s = before +:+ String sep after ∧ contains sep before = false.
Proof.
  revert before. induction s as [|c s IH]; intros before; simpl; [done|].
  case_decide as Hc.
  - subst c. intros [= <- <-]. by rewrite append_nil_l.
  - destruct (split1 sep s) as [[b a]|]; [|done].
    intros [= <- <-]. destruct (IH b eq_refl) as [-> Hb].
    rewrite append_cons_l. simpl. by rewrite decide_False.
Qed.

Lemma split1_Some sep s before after :
  split1 sep s = Some (before, after) ↔
  s = before +:+ String sep after ∧ contains sep before = false.
Proof.
  split; [apply split1_inv|]. intros [-> ?]. by apply split1_append.
Qed.

(** The name that [get_links] looks up is the name that the sort reads
    from the link. *)
Lemma split1_split_head sep s :
  split_head sep s = from_option fst s (split1 sep s).
Proof.
  induction s as [|c s IH]; simpl; [done|].
  case_decide; [done|]. rewrite IH. by destruct (split1 sep s) as [[??]|].
Qed.

Lemma get_linked_service_eq self owner link :
  get_linked_service self owner link =
    match get_service self (split_head ":" link) with
    | Ok service => Built (service, snd <$> split1 ":" link)
    | Err _ => Failed (LinkDoesNotExist owner (split_head ":" link))
    end.
Proof.
  unfold get_linked_service. rewrite split1_split_head.
  destruct (split1 ":" link) as [[service_name' link_name]|]; simpl;
    (destruct (get_service self _) as [?|e] eqn:Hget; [done|]);
    by apply get_service_Err in Hget as ->.
Qed.

Lemma map_links_Built self owner links out :
  map_links self owner links = Built out ↔
  Forall2 (λ link l, get_linked_service self owner link = Built l) links out.
Proof.
  revert out. induction links as [|link links IH]; intros out; simpl.
  - split; [intros [= <-]; constructor|by intros ->%Forall2_nil_inv_l].
  - destruct (get_linked_service self owner link) as [l|e] eqn:Hl.
    + destruct (map_links self owner links) as [ls|e] eqn:Hls.
      * split.
        -- intros [= <-]. constructor; [done|]. by apply IH.
        -- intros (l' & ls' & Hl' & Hls' & ->)%Forall2_cons_inv_l.
           apply IH in Hls'. congruence.
      * split; [done|].
        intros (l' & ls' & Hl' & Hls' & ->)%Forall2_cons_inv_l.
        by apply IH in Hls'.
    + split; [done|].
      intros (l' & ls' & Hl' & Hls' & ->)%Forall2_cons_inv_l. congruence.
Qed.

Lemma map_links_Failed self owner links e :
  map_links self owner links = Failed e ↔
  ∃ before link after found,
    links = before ++ link :: after ∧
    Forall2 (λ link l, get_linked_service self owner link = Built l)
            before found ∧
    get_linked_service self owner link = Failed e.
Proof.
  induction links as [|link links [IH1 IH2]]; simpl.
  { split; [done|]. by intros ([|??] & ? & ? & ? & ? & _). }
  destruct (get_linked_service self owner link) as [l|e'] eqn:Hl.
  - split.
    + intros Hrun. destruct (map_links self owner links) as [ls|e'']; [done|].
      injection Hrun as ->.
      destruct IH1 as (before & z & after & found & -> & Hall & Hz); [done|].
      exists (link :: before), z, after, (l :: found).
      split; [done|]. split; [by constructor|done].
    + intros ([|x' before] & z & after & found & Heq & Hall & Hz);
        simplify_eq/=; [congruence|].
      inversion Hall; subst. rewrite IH2; [done|]. eauto 10.
  - split.
    + intros [= ->]. exists [], link, links, [].
      split; [done|]. split; [constructor|done].
    + intros ([|x' before] & z & after & found & Heq & Hall & Hz);
        simplify_eq/=; first [congruence|inversion Hall; congruence].
Qed.

Lemma append_inv_head (s t t' : string) : s +:+ t = s +:+ t' → t = t'.
Proof.
  induction s as [|c s IH]; [by rewrite !append_nil_l|].
  rewrite !append_cons_l. intros [= ?]. by apply IH.
Qed.

Lemma contains_append sep (s t : string) :
  contains sep (s +:+ String sep t) = true.
Proof.
  induction s as [|c s IH].
  - rewrite append_nil_l. cbn [contains]. by rewrite decide_True.
  - rewrite append_cons_l. cbn [contains]. by case_decide.
Qed.

(** The alias of a link: what follows its first [':']. *)
Lemma link_alias link alias :
  snd <$> split1 ":" link = alias ↔
  match alias with
  | Some link_name => link = split_head ":" link +:+ String ":" link_name
  | None => contains ":" link = false
  end.
Proof.
  rewrite split1_split_head.
  destruct (split1 ":" link) as [[before after]|] eqn:Hs; simpl.
  - pose proof Hs as [Heq Hb]%split1_Some.
    destruct alias as [link_name|].
    + split; [by intros [= <-]|]. intros Heq'. rewrite Heq in Heq' at 1.
      apply append_inv_head in Heq'. congruence.
    + split; [done|]. intros Hc%split1_None. congruence.
  - apply split1_None in Hs. destruct alias as [link_name|].
    + split; [done|]. intros Heq. rewrite Heq in Hs.
      by rewrite contains_append in Hs.
    + done.
Qed.

Lemma Project_get_links_Built self config_links owner links :
  Project_get_links self config_links owner = Built links ↔
  Forall2 (λ link l, get_service self (split_head ":" link) = Ok l.1 ∧
                     l.2 = snd <$> split1 ":" link)
          (default [] config_links) links.
Proof.
  unfold Project_get_links. rewrite map_links_Built.
  split; intros Hall; (eapply Forall2_impl; [exact Hall|]);
    intros link [service alias]; rewrite get_linked_service_eq; simpl;
    destruct (get_service self (split_head ":" link)); naive_solver.
Qed.

Lemma Project_get_links_Failed self config_links owner e :
  Project_get_links self config_links owner = Failed e ↔
  ∃ before link after,
    default [] config_links = before ++ link :: after ∧
    Forall (λ link, ∃ service,
              get_service self (split_head ":" link) = Ok service) before ∧
    get_service self (split_head ":" link)
      = Err (NoSuchService (split_head ":" link)) ∧
    e = LinkDoesNotExist owner (split_head ":" link).
Proof.
  unfold Project_get_links. rewrite map_links_Failed. split.
  - intros (before & link & after & found & Heq & Hall & Hlink).
    exists before, link, after. split; [done|]. split.
    + clear -Hall. induction Hall as [|x l ?? Hx _ IH]; constructor; [|done].
      rewrite get_linked_service_eq in Hx.
      destruct (get_service self (split_head ":" x)); [eauto|done].
    + rewrite get_linked_service_eq in Hlink.
      destruct (get_service self (split_head ":" link)) as [?|e'] eqn:Hget;
        [done|]. apply get_service_Err in Hget as ->. split; congruence.
  - intros (before & link & after & Heq & Hall & Hlink & ->).
    assert (∃ found,
      Forall2 (λ link l, get_linked_service self owner link = Built l)
              before found) as [found Hfound].
    { clear -Hall. induction Hall as [|x l [s Hx] _ [found IH]].
      - exists []. constructor.
      - exists ((s, snd <$> split1 ":" x) :: found). constructor; [|done].
        by rewrite get_linked_service_eq, Hx. }
    exists before, link, after, found. split; [done|]. split; [done|].
    by rewrite get_linked_service_eq, Hlink.
Qed.

(** X10: [get_links] answers one link for each entry, in the order of the
    entries: the service is what [get_service] finds for the part of the
    entry before its first [':'], which is the name that
    [sort_service_dicts] reads from the entry, and the alias is what
    follows the first [':'], none when the entry has no [':']. No entries
    and no ['links'] key give no links. *)
Theorem Project_get_links_found self config_links owner links :
  Project_get_links self config_links owner = Built links ↔
  Forall2 (λ name' l, get_service self name' = Ok l.1)
          (get_service_names (default [] config_links)) links ∧
  Forall2 (λ link l,
             match l.2 with
             | Some link_name =>
                 link = split_head ":" link +:+ String ":" link_name
             | None => contains ":" link = false
             end) (default [] config_links) links.
Proof.
  rewrite Project_get_links_Built. unfold get_service_names.
  rewrite Forall2_fmap_l. split.
  - intros Hall. split; (eapply Forall2_impl; [exact Hall|]);
      intros link l [Hs Ha]; [done|]. simpl. by apply link_alias.
  - intros [Hs Ha]. revert Ha. induction Hs as [|link l ??? _ IH];
      intros Ha; [constructor|].
    apply Forall2_cons in Ha as [Hl Ha].
    constructor; [|by apply IH]. split; [done|]. symmetry.
    apply link_alias. by destruct l.2.
Qed.

(** X11: [get_links] raises exactly when [get_service] does not find the
    name of an entry; the error is the [ConfigurationError] that names the
    owner given to the call and the name of the first such entry, without
    its alias; it never lets [NoSuchService] through. *)
Theorem Project_get_links_missing self config_links owner e :
  Project_get_links self config_links owner = Failed e ↔
  ∃ before link after,
    default [] config_links = before ++ link :: after ∧
    Forall (λ link, ∃ service,
              get_service self (split_head ":" link) = Ok service) before ∧
    get_service self (split_head ":" link)
      = Err (NoSuchService (split_head ":" link)) ∧
    e = LinkDoesNotExist owner (split_head ":" link).
Proof. apply Project_get_links_Failed. Qed.

(** *** The loop of from_dicts *)

Lemma links_first_snoc l s :
  links_first l → (∀ t, t ∈ get_linked_services s → t ∈ l) →
  links_first (l ++ [s]).
Proof.
  intros Hl Hs l1 x l2 Heq t Ht.
  destruct l2 as [|y l2 _] using rev_ind.
  - apply (app_inj_tail l l1) in Heq as [-> ->]. by apply Hs.
  - rewrite app_comm_cons, (assoc (++)) in Heq.
    apply app_inj_tail in Heq as [-> _]. by eapply Hl.
Qed.

Lemma links_first_precedes l s t :
  links_first l → s ∈ l → t ∈ get_linked_services s → precedes l t s.
Proof.
  intros Hl (l1 & l2 & ->)%list_elem_of_split Ht.
  apply (Hl l1 s l2 eq_refl), list_elem_of_lookup in Ht as [i Hi].
  exists i, (length l1). split; [by apply lookup_app_l_Some|].
  split; [by rewrite list_lookup_middle|]. by apply lookup_lt_Some in Hi.
Qed.

Section construction_proofs.
Context {Container : Type} (from_id : string → option Container).
Variables (name' : string) (namespace' : option string).

Lemma from_dicts_loop_Built service_dicts services' asked asked' out :
  links_first services' →
  from_dicts_loop from_id name' namespace' service_dicts services' asked
    = (asked', Built out) →
  ∃ added, out = services' ++ added ∧
           Forall2 stands_for service_dicts added ∧
           service_id <$> added
             = seq (length services') (length service_dicts) ∧
           links_first out.
Proof.
  revert services' asked.
  induction service_dicts as [|d rest IH]; intros services' asked Hfirst;
    cbn [from_dicts_loop].
  { intros [= <- <-]. exists []. by rewrite app_nil_r. }
  destruct (Project_get_links _ _ _) as [links|e] eqn:Hlinks; [|done].
  destruct (get_volumes_from _ _ _) as [asked1 [volumes_from|e]]; [|done].
  apply Project_get_links_Built in Hlinks.
  set (service := mkService (length services') (sd_name d) links).
  intros Hrun. apply IH in Hrun as (added & -> & Hall & Hids & Hout).
  - exists (service :: added). split; [by rewrite <- (assoc (++))|].
    split; [|split; [|done]].
    + constructor; [|done]. split; [done|].
      eapply Forall2_impl; [exact Hlinks|].
      intros link l [(_ & _ & Hname)%get_service_Ok Halias]. by split.
    + rewrite length_app in Hids. simpl in Hids.
      rewrite fmap_cons, Hids. simpl. by rewrite Nat.add_1_r.
  - apply links_first_snoc; [done|]. intros t Ht.
    unfold get_linked_services in Ht. simpl in Ht.
    apply list_elem_of_fmap in Ht as (l & -> & Hl).
    destruct (Forall2_elem_of_r _ _ _ _ Hlinks Hl) as (link & _ & Hget & _).
    by apply get_service_Ok in Hget as [? _].
Qed.

Lemma from_dicts_loop_Failed service_dicts services' asked asked' e :
  from_dicts_loop from_id name' namespace' service_dicts services' asked
    = (asked', Failed e) →
  ∃ d, d ∈ service_dicts ∧
    match e with
    | LinkDoesNotExist owner target =>
        owner = sd_name d ∧ target ∈ get_service_names (get_links d)
    | Raised e' =>
        ∃ volume_name,
          e' = ConfigurationError (sd_name d) volume_name ∧
          volume_name ∈ get_volumes d ∧ from_id volume_name = None ∧
          last asked' = Some volume_name
    | _ => False
    end.
Proof.
  revert services' asked.
  induction service_dicts as [|d rest IH]; intros services' asked;
    cbn [from_dicts_loop]; [done|].
  destruct (Project_get_links _ _ _) as [links|e'] eqn:Hlinks.
  - destruct (get_volumes_from _ _ _) as [asked1 [volumes_from|e']] eqn:Hvol.
    + intros (d' & ? & ?)%IH. exists d'. split; [by right|done].
    + intros [= <- <-]. exists d. split; [by left|].
      unfold get_volumes_from in Hvol.
      apply get_volumes_from_loop_Err in Hvol
        as (before & v & after & sources & Heq & _ & [_ Hv] & -> & ->).
      exists v. split; [done|]. split; [rewrite Heq; set_solver|].
      split; [done|]. by rewrite !(assoc (++)), last_snoc.
  - intros [= <- <-]. exists d. split; [by left|].
    apply Project_get_links_Failed in Hlinks
      as (before & link & after & Heq & _ & _ & ->).
    split; [done|]. unfold get_service_names, get_links. rewrite Heq.
    apply list_elem_of_fmap_2. set_solver.
Qed.
End construction_proofs.

(** *** from_dicts *)

Lemma NoDup_split_before {A} (l a b l1 l2 : list A) d x :
  NoDup l → l = a ++ d :: b → l = l1 ++ x :: l2 → d ∈ l2 → x ∈ a.
Proof.
  intros Hnd Ha Hl [k Hk]%list_elem_of_lookup.
  assert (l !! length a = Some d) as Hd by (by rewrite Ha, list_lookup_middle).
  assert (l !! (length l1 + S k) = Some d) as Hd'.
  { rewrite Hl, lookup_app_r by lia.
    replace (length l1 + S k - length l1) with (S k) by lia. done. }
  pose proof (NoDup_lookup _ _ _ _ Hnd Hd Hd') as Hlen.
  assert (l !! length l1 = Some x) as Hx by (by rewrite Hl, list_lookup_middle).
  rewrite Ha, lookup_app_l in Hx by lia. by eapply list_elem_of_lookup_2.
Qed.

Lemma get_service_declared self n :
  contains "_" n = false → n ∈ service_name <$> services self →
  ∃ service, get_service self n = Ok service.
Proof.
  intros Hn Hin. rewrite get_service_plain by done. unfold lookup_service.
  destruct (find_service n (services self)) as [s|] eqn:Hfind; [by eauto|].
  apply find_service_None in Hfind.
  apply list_elem_of_fmap in Hin as (s & -> & Hs).
  rewrite Forall_forall in Hfind. by destruct (Hfind s Hs).
Qed.

Section from_dicts_proofs.
Context {Container : Type} (from_id : string → option Container).
Variables (name' : string) (namespace' : option string).

Lemma resolves_all self volume_names :
  (∀ v, v ∈ volume_names →
        (∃ service, get_service self v = Ok service) ∨ is_Some (from_id v)) →
  ∃ sources, Forall2 (resolves from_id self) volume_names sources.
Proof.
  induction volume_names as [|v l IH]; intros Hall.
  { exists []. constructor. }
  destruct IH as [sources Hsources]; [intros; apply Hall; by right|].
  destruct (get_service self v) as [service|e] eqn:Hv.
  - exists (FromService service :: sources).
    constructor; [by constructor|done].
  - apply get_service_Err in Hv as He. subst e.
    destruct (Hall v) as [[s Hs]|[container Hc]]; [by left|congruence|].
    exists (FromContainer container :: sources).
    constructor; [by constructor|done].
Qed.

Lemma from_dicts_loop_builds sorted rest done' services' asked :
  (∀ before d after, sorted = before ++ d :: after →
     (∀ n, n ∈ get_service_names (get_links d) →
           n ∈ sd_name <$> before ∧ contains "_" n = false) ∧
     (∀ v, v ∈ get_volumes d →
           (v ∈ sd_name <$> before ∧ contains "_" v = false) ∨
           is_Some (from_id v))) →
  sorted = done' ++ rest →
  service_name <$> services' = sd_name <$> done' →
  ∃ asked' out,
    from_dicts_loop from_id name' namespace' rest services' asked
      = (asked', Built out).
Proof.
  intros Hready. revert done' services' asked.
  induction rest as [|d rest IH]; intros done' services' asked Heq Hnames;
    cbn [from_dicts_loop]; [by eauto|].
  destruct (Hready _ _ _ Heq) as [Hlinks Hvolumes].
  set (project := new_project name' services' namespace').
  assert (∀ n, n ∈ sd_name <$> done' → contains "_" n = false →
               ∃ service, get_service project n = Ok service) as Hfound.
  { intros n Hn Hc. apply get_service_declared; [done|].
    simpl. by rewrite Hnames. }
  destruct (Project_get_links project (sd_links d) (sd_name d))
    as [links|e] eqn:Hl.
  - destruct (get_volumes_from from_id project d)
      as [asked1 [volumes_from|e]] eqn:Hv.
    + apply (IH (done' ++ [d])); [by rewrite <- (assoc (++))|].
      by rewrite !fmap_app, Hnames.
    + exfalso. unfold get_volumes_from in Hv.
      destruct (resolves_all project (get_volumes d)) as [sources Hsrc].
      { intros v [[Hin Hc]|Hc]%Hvolumes; [left|by right]. by apply Hfound. }
      pose proof (proj2 (get_volumes_from_loop_Ok from_id project (sd_name d)
        (get_volumes d) [] [] _ _) (ex_intro _ sources
          (conj Hsrc (conj eq_refl eq_refl)))) as Hok.
      congruence.
  - exfalso. apply Project_get_links_Failed in Hl
      as (before & link & after & Hdl & _ & Hmiss & _).
    destruct (Hlinks (split_head ":" link)) as [Hin Hc].
    { unfold get_service_names, get_links. rewrite Hdl.
      apply list_elem_of_fmap_2. set_solver. }
    destruct (Hfound _ Hin Hc) as [s Hs]. congruence.
Qed.

Lemma from_dicts_Built service_dicts asked project :
  from_dicts from_id name' service_dicts namespace'
    = Some (asked, Built project) →
  ∃ sorted asked',
    sort_service_dicts service_dicts = Done sorted ∧
    from_dicts_loop from_id name' namespace' sorted [] []
      = (asked', Built (services project)) ∧
    project = new_project name' (services project) namespace'.
Proof.
  unfold from_dicts.
  destruct (sort_service_dicts service_dicts) as [sorted|e|]; [|done..].
  destruct (from_dicts_loop _ _ _ _ _ _) as [asked' [services'|e]] eqn:Hloop;
    [|done].
  intros [= <- <-]. by exists sorted, asked'.
Qed.

Lemma links_first_nil : links_first [].
Proof. by intros [|??] ???. Qed.

(** X12: for pairwise different declarations, the registry that
    [from_dicts] builds mirrors the sorted declarations: one service for
    each declaration, in the order that [sort_service_dicts] gives, with
    the name of the declaration and one link for each of its link
    entries, to a service whose name is the name of the entry (with or
    without a project name in front) and under the alias of the entry. *)
Theorem from_dicts_registry service_dicts asked project :
  NoDup service_dicts →
  from_dicts from_id name' service_dicts namespace'
    = Some (asked, Built project) →
  ∃ sorted,
    sort_service_dicts service_dicts = Done sorted ∧
    Forall2 stands_for sorted (services project) ∧
    length (services project) = length service_dicts ∧
    name project = name'.
Proof.
  intros _ (sorted & asked' & Hsort & Hloop & Hproject)%from_dicts_Built.
  apply from_dicts_loop_Built in Hloop as (added & Heq & Hall & _ & _);
    [|apply links_first_nil].
  simpl in Heq. subst added. exists sorted.
  split; [done|]. split; [done|]. split; [|by rewrite Hproject].
  pose proof (sort_service_dicts_spec service_dicts) as Hspec.
  rewrite Hsort in Hspec. destruct Hspec as [Hperm _].
  apply Forall2_length in Hall. by rewrite <- Hall, Hperm.
Qed.

(** X13: for pairwise different declarations, in the registry that
    [from_dicts] builds no service occurs twice and every service comes
    after all the services it links to. *)
Theorem from_dicts_links_first service_dicts asked project :
  NoDup service_dicts →
  from_dicts from_id name' service_dicts namespace'
    = Some (asked, Built project) →
  NoDup (services project) ∧
  ∀ s t, s ∈ services project → t ∈ get_linked_services s →
         precedes (services project) t s.
Proof.
  intros _ (sorted & asked' & Hsort & Hloop & Hproject)%from_dicts_Built.
  apply from_dicts_loop_Built in Hloop as (added & Heq & _ & Hids & Hfirst);
    [|apply links_first_nil].
  simpl in Heq, Hids. subst added. split.
  - apply (NoDup_fmap_1 service_id). rewrite Hids. apply NoDup_seq.
  - intros s t Hs Ht. by apply links_first_precedes.
Qed.

(** X14: for pairwise different declarations, an error of [from_dicts]
    blames what is there. A
    [DependencyError] is the error of [sort_service_dicts], raised before
    the client is asked anything; a link error names a declaration of the
    input and the name of one of its own link entries; a volumes_from
    error names a declaration of the input and one of its own
    volumes_from entries, which the client was asked for last and did
    not find. *)
Theorem from_dicts_error service_dicts asked e :
  NoDup service_dicts →
  from_dicts from_id name' service_dicts namespace' = Some (asked, Failed e) →
  match e with
  | Dependency e' => sort_service_dicts service_dicts = Raise e' ∧ asked = []
  | LinkDoesNotExist owner target =>
      ∃ d, d ∈ service_dicts ∧ sd_name d = owner ∧
           target ∈ get_service_names (get_links d)
  | Raised e' =>
      ∃ d volume_name,
        d ∈ service_dicts ∧ volume_name ∈ get_volumes d ∧
        e' = ConfigurationError (sd_name d) volume_name ∧
        from_id volume_name = None ∧ last asked = Some volume_name
  | NoConfigurationOptions _ => False
  end.
Proof.
  intros _. unfold from_dicts.
  pose proof (sort_service_dicts_spec service_dicts) as Hspec.
  destruct (sort_service_dicts service_dicts) as [sorted|e'|]; [| |done].
  - destruct Hspec as [Hperm _].
    destruct (from_dicts_loop _ _ _ _ _ _) as [asked' [services'|e']] eqn:Hloop;
      [done|]. simpl. intros H. injection H as He Hasked. subst asked e.
    apply from_dicts_loop_Failed in Hloop as (d & Hd & He).
    rewrite Hperm in Hd. destruct e' as [|owner target|e|]; [done| | |done].
    + destruct He as [-> ?]. eauto.
    + destruct He as (v & ? & ? & ? & ?). eauto 10.
  - by intros [= <- <-].
Qed.

(** X15: [from_dicts] returns or raises on every input, and it raises a
    [DependencyError] exactly when some declaration reaches itself
    through links and volumes_from entries; no service is looked up and
    the client is not asked anything then. *)
Theorem from_dicts_dependency_error service_dicts :
  is_Some (from_dicts from_id name' service_dicts namespace') ∧
  ((∃ x, tc (depends_on service_dicts) x x) ↔
   ∃ e, from_dicts from_id name' service_dicts namespace'
        = Some ([], Failed (Dependency e))) ∧
  ∀ asked e,
    from_dicts from_id name' service_dicts namespace'
      = Some (asked, Failed (Dependency e)) →
    asked = [] ∧ ∃ x, tc (depends_on service_dicts) x x.
Proof.
  assert (∀ asked e,
    from_dicts from_id name' service_dicts namespace'
      = Some (asked, Failed (Dependency e)) →
    asked = [] ∧ ∃ x, tc (depends_on service_dicts) x x) as Hdep.
  { unfold from_dicts.
    pose proof (sort_service_dicts_spec service_dicts) as Hspec.
    destruct (sort_service_dicts service_dicts) as [sorted|e'|]; [| |done].
    - destruct (from_dicts_loop _ _ _ _ _ _) as [asked' [services'|e']]
        eqn:Hloop; [done|]. simpl. intros asked e H.
      injection H as He Hasked. subst asked e'.
      by apply from_dicts_loop_Failed in Hloop as (d & _ & ?).
    - intros asked e [= <- <-]. split; [done|]. by eapply closes_tc. }
  split; [|split; [split|done]].
  - unfold from_dicts.
    pose proof (sort_service_dicts_spec service_dicts) as Hspec.
    destruct (sort_service_dicts service_dicts) as [sorted|e'|];
      [|by eauto|done].
    by destruct (from_dicts_loop _ _ _ _ _ _).
  - intros [x Hx].
    destruct (sort_service_dicts_cycle_raises service_dicts x Hx)
      as (e & He & _).
    exists e. unfold from_dicts. by rewrite He.
  - intros [e He]. by apply Hdep in He as [_ ?].
Qed.

(** X16: a well-formed collection always builds: when the names of the
    declarations are unique and have no ['_'], no declaration reaches
    itself through its references, every link entry names a declaration,
    and every volumes_from entry names a declaration or is an id that
    the client finds, [from_dicts] returns a project. *)
Theorem from_dicts_well_formed service_dicts :
  unique_names service_dicts →
  (∀ d, d ∈ service_dicts → contains "_" (sd_name d) = false) →
  acyclic service_dicts →
  (∀ d n, d ∈ service_dicts → n ∈ get_service_names (get_links d) →
          n ∈ sd_name <$> service_dicts) →
  (∀ d v, d ∈ service_dicts → v ∈ get_volumes d →
          v ∈ sd_name <$> service_dicts ∨ is_Some (from_id v)) →
  ∃ asked project,
    from_dicts from_id name' service_dicts namespace'
      = Some (asked, Built project).
Proof.
  intros Hunique Hplain Hacyclic Hlinks Hvolumes. unfold from_dicts.
  pose proof (sort_service_dicts_spec service_dicts) as Hspec.
  destruct (sort_service_dicts service_dicts) as [sorted|e|]; [| |done].
  2:{ apply closes_tc in Hspec as [x Hx]. by destruct (Hacyclic x). }
  destruct Hspec as [Hperm Hord].
  assert (NoDup sorted) as Hnd.
  { rewrite Hperm. by eapply NoDup_fmap_1. }
  assert (∀ before d after n,
    sorted = before ++ d :: after → n ∈ sd_name <$> service_dicts →
    (n ∈ get_service_names (get_links d) ∨ n ∈ get_volumes d) →
    n ∈ sd_name <$> before ∧ contains "_" n = false) as Hbefore.
  { intros before d after n Heq (x & -> & Hx)%list_elem_of_fmap Href.
    split; [|by apply Hplain].
    assert (d ∈ service_dicts) as Hd by (rewrite <- Hperm, Heq; set_solver).
    pose proof Hx as Hx'. rewrite <- Hperm in Hx'.
    apply list_elem_of_split in Hx' as (l1 & l2 & Hl).
    apply list_elem_of_fmap_2.
    eapply (NoDup_split_before sorted before after l1 l2 d x); [done..|].
    by eapply Hord. }
  destruct (from_dicts_loop_builds sorted sorted [] [] []) as (asked & out & ->);
    [|done|done|by eauto].
  intros before d after Heq.
  assert (d ∈ service_dicts) as Hd by (rewrite <- Hperm, Heq; set_solver).
  split.
  - intros n Hn. eapply Hbefore; [done|by eapply Hlinks|by left].
  - intros v Hv. destruct (Hvolumes d v Hd Hv) as [Hin|Hc]; [left|by right].
    eapply Hbefore; [done|done|by right].
Qed.
End from_dicts_proofs.

Lemma from_dicts_registry_witness :
  let service_dicts :=
    [decl "web" ["db:database"] []; decl "db" [] ["volume"];
     decl "volume" [] []] in
  let services' :=
    [mkService 0 "volume" []; mkService 1 "db" [];
     mkService 2 "web" [(mkService 1 "db" [], Some "database")]] in
  ∃ sorted,
    sort_service_dicts service_dicts = Done sorted ∧
    Forall2 stands_for sorted services' ∧
    length services' = length service_dicts ∧
    "figtest" = "figtest".
Proof.
  intros service_dicts services'.
  apply (from_dicts_registry (λ _ : string, @None string) "figtest" None
           service_dicts [] (new_project "figtest" services' None)).
  - by apply (bool_decide_unpack _).
  - vm_compute. reflexivity.
Defined.

Lemma from_dicts_links_first_witness :
  let services' :=
    [mkService 0 "volume" []; mkService 1 "db" [];
     mkService 2 "web" [(mkService 1 "db" [], Some "database")]] in
  NoDup services' ∧
  ∀ s t, s ∈ services' → t ∈ get_linked_services s → precedes services' t s.
Proof.
  intros services'.
  apply (from_dicts_links_first (λ _ : string, @None string) "figtest" None
           [decl "web" ["db:database"] []; decl "db" [] ["volume"];
            decl "volume" [] []]
           [] (new_project "figtest" services' None)).
  - by apply (bool_decide_unpack _).
  - vm_compute. reflexivity.
Defined.

Lemma from_dicts_error_witness :
  let service_dicts := [decl "web" ["db:database"] []; decl "cache" [] []] in
  ∃ d, d ∈ service_dicts ∧ sd_name d = "web" ∧
       "db" ∈ get_service_names (get_links d).
Proof.
  intros service_dicts.
  apply (from_dicts_error (λ _ : string, @None string) "figtest" None
           service_dicts [] (LinkDoesNotExist "web" "db")).
  - by apply (bool_decide_unpack _).
  - vm_compute. reflexivity.
Defined.

Lemma from_dicts_well_formed_witness :
  let from_id := λ id : string,
    if decide (id = "3f2a") then Some "container 3f2a" else None in
  ∃ asked project,
    from_dicts from_id "figtest"
      [decl "web" ["db:database"] ["3f2a"]; decl "db" [] ["volume"];
       decl "volume" [] []] None
    = Some (asked, Built project).
Proof.
  intros from_id.
  apply (from_dicts_well_formed from_id "figtest" None).
  - by apply (bool_decide_unpack _).
  - intros d Hd. each_declaration Hd; reflexivity.
  - apply (acyclic_ranked _ (λ d,
      if decide (sd_name d = "web") then 2
      else if decide (sd_name d = "db") then 1 else 0)).
    intros a b (Ha & Hb & Hr).
    each_declaration Ha; each_declaration Hb;
      first [ by apply (bool_decide_unpack _)
            | exfalso; revert Hr; by apply (bool_decide_unpack (¬ _)) ].
  - intros d n Hd Hn. each_declaration Hd;
      apply list_elem_of_fmap in Hn as (link & -> & Hlink);
      each_declaration Hlink. by apply (bool_decide_unpack _).
  - intros d v Hd Hv. each_declaration Hd; each_declaration Hv.
    + right. by exists "container 3f2a".
    + left. by apply (bool_decide_unpack _).
Defined.

(** ** The order of the lifecycle calls *)

Lemma get_services_links_precede self service_name' service_names out :
  get_services self (Some (service_name' :: service_names)) true = Ok out →
  NoDup out ∧
  ∀ s t, s ∈ out → t ∈ get_linked_services s → precedes out t s.
Proof.
  unfold get_services.
  destruct (for_each _ _) as [requested|e]; [|done].
  rewrite result_bind_Ok, uniques_of_keep_first. intros [= <-].
  split; [apply NoDup_keep_first|]. intros s t Hs Ht.
  rewrite elem_of_keep_first in Hs. apply keep_first_precedes; [done|].
  intros l1 l2 Heq. eapply links_first_flat_map; [|done..].
  apply Forall_forall. intros ? _. apply links_first_closure.
Qed.

Section lifecycle_of_a_built_project.
Context {Container : Type} (from_id : string → option Container).

Lemma from_dicts_precedes name' service_dicts namespace' asked project s t :
  from_dicts from_id name' service_dicts namespace'
    = Some (asked, Built project) →
  s ∈ services project → t ∈ get_linked_services s →
  precedes (services project) t s.
Proof.
  intros (sorted & asked' & Hsort & Hloop & Hproject)%from_dicts_Built Hs Ht.
  apply from_dicts_loop_Built in Hloop as (added & Heq & _ & _ & Hfirst);
    [|apply links_first_nil].
  by apply links_first_precedes.
Qed.

(** X17: on a project that [from_dicts] built from pairwise different
    declarations, [start] and [restart] without names call every service
    after the services it links to, and [stop] and [kill] without names
    call every service before the services it links to. *)
Theorem from_dicts_lifecycle_order name' service_dicts namespace' asked project :
  NoDup service_dicts →
  from_dicts from_id name' service_dicts namespace'
    = Some (asked, Built project) →
  ∃ started restarted stopped killed,
    start project None = Ok started ∧
    restart project None = Ok restarted ∧
    stop project None = Ok stopped ∧
    kill project None = Ok killed ∧
    ∀ s t, s ∈ services project → t ∈ get_linked_services s →
      precedes started (CallStart t) (CallStart s) ∧
      precedes restarted (CallRestart t) (CallRestart s) ∧
      precedes stopped (CallStop s) (CallStop t) ∧
      precedes killed (CallKill s) (CallKill t).
Proof.
  intros _ Hbuilt.
  exists (CallStart <$> services project), (CallRestart <$> services project),
    (CallStop <$> reverse (services project)),
    (CallKill <$> reverse (services project)).
  do 4 (split; [done|]). intros s t Hs Ht.
  pose proof (from_dicts_precedes _ _ _ _ _ _ _ Hbuilt Hs Ht) as Hts.
  split; [by apply precedes_fmap|]. split; [by apply precedes_fmap|].
  split; by apply precedes_fmap, precedes_reverse.
Qed.
End lifecycle_of_a_built_project.

Lemma from_dicts_lifecycle_order_witness :
  let db' := mkService 0 "db" [] in
  let web' := mkService 1 "web" [(db', None)] in
  ∃ started restarted stopped killed,
    start (new_project "test" [db'; web'] None) None = Ok started ∧
    restart (new_project "test" [db'; web'] None) None = Ok restarted ∧
    stop (new_project "test" [db'; web'] None) None = Ok stopped ∧
    kill (new_project "test" [db'; web'] None) None = Ok killed ∧
    ∀ s t, s ∈ [db'; web'] → t ∈ get_linked_services s →
      precedes started (CallStart t) (CallStart s) ∧
      precedes restarted (CallRestart t) (CallRestart s) ∧
      precedes stopped (CallStop s) (CallStop t) ∧
      precedes killed (CallKill s) (CallKill t).
Proof.
  intros db' web'.
  apply (from_dicts_lifecycle_order (λ _ : string, @None string) "test"
           [decl "web" ["db"] []; decl "db" [] []] None []
           (new_project "test" [db'; web'] None)).
  - by apply (bool_decide_unpack _).
  - vm_compute. reflexivity.
Defined.

Section services_runtime_proofs.
Context {Container ContainerInfo : Type}.
Context (create : CreateFunc → Service → bool → bool → bool → list Container).
Context (listed : bool → list ContainerInfo).
Context (has_container : Service → ContainerInfo → bool → bool).
Context (from_ps : ContainerInfo → Container).

(** X18: [up] with names and [start_links], and [pull] with names, reach
    every service that a called service links to, and call it before that
    service; each service is called once. [up] calls the same method on
    every service: [fresh_start] when that flag is set, whatever
    [recreate] says, and it returns the containers that these calls
    return, in their order. *)
Theorem up_pull_links_first self service_name' service_names :
  (∀ recreate insecure_registry detach do_build fresh_start events running,
     up create self (Some (service_name' :: service_names)) true recreate
        insecure_registry detach do_build fresh_start = Ok (events, running) →
     let create_func :=
       if fresh_start then FreshStart
       else if recreate then RecreateContainers
       else StartOrCreateContainers in
     let call service :=
       EventCreate create_func service insecure_registry detach do_build in
     ∃ services,
       NoDup services ∧ events = call <$> services ∧
       running = flat_map (λ service, create create_func service
                             insecure_registry detach do_build) services ∧
       ∀ s t, call s ∈ events → t ∈ get_linked_services s →
              precedes events (call t) (call s)) ∧
  (∀ insecure_registry events,
     pull self (Some (service_name' :: service_names)) insecure_registry
       = Ok events →
     NoDup events ∧
     ∀ s t, EventPull s insecure_registry ∈ events →
            t ∈ get_linked_services s →
            precedes events (EventPull t insecure_registry)
                     (EventPull s insecure_registry)).
Proof.
  split.
  - intros recreate ir detach do_build fresh_start events running.
    unfold up.
    destruct (get_services _ _ _) as [services|e] eqn:Hget; [|done].
    rewrite result_bind_Ok. intros [= <- <-].
    apply get_services_links_precede in Hget as [Hnd Hfirst].
    exists services. split; [done|].
    split; [done|]. split; [done|]. intros s t Hs Ht.
    apply list_elem_of_fmap in Hs as (s' & [= ->] & Hs).
    by apply (precedes_fmap
                (λ service, EventCreate _ service ir detach do_build)), Hfirst.
  - intros ir events. unfold pull.
    destruct (get_services _ _ _) as [services|e] eqn:Hget; [|done].
    rewrite result_bind_Ok. intros [= <-].
    apply get_services_links_precede in Hget as [Hnd Hfirst]. split.
    + apply NoDup_fmap_2; [|done]. by intros ?? [= ->].
    + intros s t Hs Ht.
      apply list_elem_of_fmap in Hs as (s' & [= ->] & Hs).
      by apply (precedes_fmap (λ service, EventPull service ir)), Hfirst.
Qed.

Lemma containers_of_Err self service_names one_off listing e :
  get_services self service_names false = Err e → listing ≠ [] →
  containers_of has_container from_ps self service_names one_off listing
  = Err e.
Proof. intros Hget. destruct listing; [done|]. simpl. by rewrite Hget. Qed.

Lemma containers_of_Ok self service_names one_off listing services :
  get_services self service_names false = Ok services →
  containers_of has_container from_ps self service_names one_off listing
  = Ok (flat_map
          (λ container,
             replicate
               (length (filter (λ service : Service,
                  has_container service container one_off = true) services))
               (from_ps container))
          listing).
Proof.
  intros Hget. induction listing as [|container rest IH]; [done|].
  simpl. rewrite Hget, result_bind_Ok, IH, result_bind_Ok.
  rewrite flat_map_cons. do 2 f_equal.
  induction (filter _ services) as [|s l IHl]; [done|].
  simpl. by rewrite <- IHl.
Qed.

(** X19: [containers] answers the listed containers in the order of the
    listing, each one as many times as there are selected services that
    have it; an empty listing gives the empty list even for names that
    no service has, and a listing that is not empty raises the
    [NoSuchService] of [get_services]. *)
Theorem containers_listing self service_names stopped one_off :
  (listed stopped = [] →
   containers listed has_container from_ps self service_names stopped one_off
   = Ok []) ∧
  (∀ e, get_services self service_names false = Err e →
        listed stopped ≠ [] →
        containers listed has_container from_ps self service_names stopped
          one_off = Err e) ∧
  (∀ services,
     get_services self service_names false = Ok services →
     containers listed has_container from_ps self service_names stopped one_off
     = Ok (flat_map
             (λ container,
                replicate
                  (length (filter (λ service : Service,
                     has_container service container one_off = true)
                     services))
                  (from_ps container))
             (listed stopped))).
Proof.
  unfold containers. split; [by intros ->|]. split.
  - intros e. apply containers_of_Err.
  - intros services. apply containers_of_Ok.
Qed.
End services_runtime_proofs.

Lemma up_pull_links_first_witness :
  let self := new_project "test" [web; db; cache; console] None in
  let events := [EventPull db false; EventPull web false;
                 EventPull console false] in
  NoDup events ∧
  ∀ s t, EventPull s false ∈ events → t ∈ get_linked_services s →
         precedes events (EventPull t false) (EventPull s false).
Proof.
  intros self events.
  apply (proj2 (up_pull_links_first (λ _ _ _ _ _, @nil string) self
                  "console" [])).
  reflexivity.
Defined.

Lemma containers_listing_witness :
  containers (λ _, @nil string) (λ _ _ _, true) (λ info, info)
    (new_project "test" [web] None) (Some ["typo"]) false false = Ok [].
Proof.
  apply (proj1 (containers_listing (λ _, @nil string) (λ _ _ _, true)
                  (λ info, info) (new_project "test" [web] None)
                  (Some ["typo"]) false false)).
  reflexivity.
Defined.

Section up_of_a_built_project.
Context {Container Handle : Type} (from_id : string → option Container).
Context (create : CreateFunc → Service → bool → bool → bool → list Handle).

(** X20: on a project that [from_dicts] built from pairwise different
    declarations, [up] and [pull] without names call every service of
    the registry, each after the services it links to, whether
    [start_links] is set or not. *)
Theorem from_dicts_up_order name' service_dicts namespace' asked project :
  NoDup service_dicts →
  from_dicts from_id name' service_dicts namespace'
    = Some (asked, Built project) →
  ∀ start_links recreate insecure_registry detach do_build fresh_start : bool,
    let create_func :=
      if fresh_start then FreshStart
      else if recreate then RecreateContainers
      else StartOrCreateContainers in
    let call service :=
      EventCreate create_func service insecure_registry detach do_build in
    up create project None start_links recreate insecure_registry detach
       do_build fresh_start
    = Ok (call <$> services project,
          flat_map (λ service, create create_func service insecure_registry
                                 detach do_build) (services project)) ∧
    pull project None insecure_registry
    = Ok ((λ service, EventPull service insecure_registry)
            <$> services project) ∧
    ∀ s t, s ∈ services project → t ∈ get_linked_services s →
      precedes (call <$> services project) (call t) (call s) ∧
      precedes ((λ service, EventPull service insecure_registry)
                  <$> services project)
               (EventPull t insecure_registry) (EventPull s insecure_registry).
Proof.
  intros _ Hbuilt start_links recreate ir detach do_build fresh_start.
  split; [done|]. split; [done|]. intros s t Hs Ht.
  pose proof (from_dicts_precedes _ _ _ _ _ _ _ _ Hbuilt Hs Ht) as Hts.
  split.
  - by apply (precedes_fmap
                (λ service, EventCreate _ service ir detach do_build)).
  - by apply (precedes_fmap (λ service, EventPull service ir)).
Qed.
End up_of_a_built_project.

Lemma from_dicts_up_order_witness :
  let db' := mkService 0 "db" [] in
  let web' := mkService 1 "web" [(db', None)] in
  let project := new_project "test" [db'; web'] None in
  let create := λ (f : CreateFunc) (service : Service) (a b c : bool),
    ["test_" +:+ service_name service +:+ "_1"] in
  up create project None true true false false false true
  = Ok ([EventCreate FreshStart db' false false false;
         EventCreate FreshStart web' false false false],
        ["test_db_1"; "test_web_1"]).
Proof.
  intros db' web' project create.
  apply (from_dicts_up_order (λ _ : string, @None string) create "test"
           [decl "web" ["db"] []; decl "db" [] []] None [] project
           ltac:(by apply (bool_decide_unpack _)) eq_refl
           true true false false false true).
Defined.

(** ** from_config *)

Section from_config_proofs.
Context {Container : Type} (from_id : string → option Container).

Lemma from_config_loop_Built items services' :
  ∀ service_dicts,
    Forall2 (λ item d,
               item.2 = Options (sd_links d) (sd_volumes_from d) (sd_options d)
               ∧ sd_name d = item.1) items service_dicts →
    from_config_loop items services' = Built (services' ++ service_dicts).
Proof.
  revert services'. induction items as [|[key value] items IH];
    intros services' service_dicts Hall.
  - apply Forall2_nil_inv_l in Hall as ->. by rewrite app_nil_r.
  - apply Forall2_cons_inv_l in Hall as ([n l v o] & dicts & [Hv Hk] & Hall & ->).
    simpl in *. subst. rewrite (IH _ dicts Hall). by rewrite <- (assoc (++)).
Qed.

Lemma from_config_loop_Failed before service_name' after services' :
  Forall (λ item, item.2 ≠ NotADict) before →
  from_config_loop (before ++ (service_name', NotADict) :: after) services'
  = Failed (NoConfigurationOptions service_name').
Proof.
  revert services'. induction before as [|[key value] before IH];
    intros services' Hall; [done|].
  apply Forall_cons in Hall as [Hv Hall]. simpl in *.
  destruct value; [done|]. by apply IH.
Qed.

End from_config_proofs.


(** ** The cases of tests/unit/project_test.py *)

Example sort_test_from_dict_sorts_in_dependency_order :
  sort_service_dicts
    [decl "web" ["db"] []; decl "db" [] ["volume"]; decl "volume" [] []]
  = Done [decl "volume" [] []; decl "db" [] ["volume"]; decl "web" ["db"] []].
Proof. vm_compute. reflexivity. Qed.

Example test_get_service :
  get_service (new_project "test" [web] None) "web" = Ok web.
Proof. reflexivity. Qed.

Example test_get_service_with_project_name :
  get_service (new_project "test" [web] None) "test_web" = Ok web.
Proof. reflexivity. Qed.

Example test_get_service_not_found :
  get_service (new_project "test" [] None) "not_found"
  = Err (NoSuchService "not_found").
Proof. reflexivity. Qed.

Example test_get_services_returns_listed_services_with_args :
  get_services (new_project "test" [web; console] None) (Some ["console"]) false
  = Ok [console].
Proof. reflexivity. Qed.

Example test_get_services_with_include_links :
  get_services (new_project "test" [web; db; cache; console] None)
    (Some ["console"]) true
  = Ok [db; web; console].
Proof. reflexivity. Qed.

Example test_get_services_removes_duplicates_following_links :
  get_services (new_project "test" [web; db] None) (Some ["web"; "db"]) true
  = Ok [db; web].
Proof. reflexivity. Qed.
Example test_from_dict :
  from_dicts (λ _ : string, @None string) "figtest"
    [decl "web" [] []; decl "db" [] []] None
  = Some ([], Built (new_project "figtest"
                       [mkService 0 "db" []; mkService 1 "web" []] None)).
Proof. vm_compute. reflexivity. Qed.

Example test_from_dict_sorts_in_dependency_order :
  from_dicts (λ _ : string, @None string) "figtest"
    [decl "web" ["db"] []; decl "db" [] ["volume"]; decl "volume" [] []] None
  = Some ([], Built (new_project "figtest"
                       [mkService 0 "volume" []; mkService 1 "db" [];
                        mkService 2 "web" [(mkService 1 "db" [], None)]]
                       None)).
Proof. vm_compute. reflexivity. Qed.

Example test_from_config :
  from_config (λ _ : string, @None string) "figtest"
    [("web", Options None None {["image" := "busybox:latest"]});
     ("db", Options None None {["image" := "busybox:latest"]})] None
  = Some ([], Built (new_project "figtest"
                       [mkService 0 "db" []; mkService 1 "web" []] None)).
Proof. vm_compute. reflexivity. Qed.

Example test_from_config_throws_error_when_not_dict :
  from_config (λ _ : string, @None string) "figtest" [("web", NotADict)] None
  = Some ([], Failed (NoConfigurationOptions "web")).
Proof. reflexivity. Qed.

Example test_up_with_fresh_start :
  let create := λ (f : CreateFunc) (service : Service) (a b c : bool),
    ["test_" +:+ service_name service +:+ "_1"] in
  from_dicts (λ _ : string, @None string) "test"
    [decl "web" ["db"] []; decl "db" [] []] None
  = Some ([], Built (new_project "test"
                       [mkService 0 "db" [];
                        mkService 1 "web" [(mkService 0 "db" [], None)]]
                       None)) ∧
  up create
    (new_project "test"
       [mkService 0 "db" [];
        mkService 1 "web" [(mkService 0 "db" [], None)]] None)
    None true true false false false true
  = Ok ([EventCreate FreshStart (mkService 0 "db" []) false false false;
         EventCreate FreshStart
           (mkService 1 "web" [(mkService 0 "db" [], None)])
           false false false],
        ["test_db_1"; "test_web_1"]).
Proof. split; vm_compute; reflexivity. Qed.

Example test_get_links :
  let other := mkService 5 "other" [] in
  Project_get_links (new_project "test" [db; other] None)
    (Some ["db"; "db:alias"; "other"]) "test"
  = Built [(db, None); (db, Some "alias"); (other, None)].
Proof. reflexivity. Qed.

Example test_get_links_no_links :
  Project_get_links (new_project "test" [] None) None EmptyString = Built [].
Proof. reflexivity. Qed.
